(** * multi-semantic-release: the orchestrator and the CLI flag processing

  A shallow embedding of [lib/multiSemanticRelease.js] and of the
  [processFlags] function of the command line entry point, followed by the
  properties of the specification that concern them.

  Definitions: JavaScript values and objects ([JS]); the lodash functions
  and the string method the code calls ([Lodash]); the flag processing
  ([Cli]); the orchestrator ([Msr]), whose tasks run concurrently and are
  modelled as a state machine driven by the signals of the Synchronizer and
  of the release engine; a small repository to run the model on ([Sample]).

  Lemmas: objects ([JSFacts]), [processFlags] ([CliFacts]), the dependency
  graph and its cycles ([GraphFacts]), the runs of the orchestrator
  ([MsrFacts]); then the loading and linking of the packages
  ([PackageFacts]), what every schedule preserves ([RunFacts]) and more on
  [processFlags] ([FlagsFacts]), with a repository on disk ([Disk]) to run
  the model on paths. *)

From Stdlib Require Import List String Ascii Bool ZArith Arith Lia DecimalString.
Set Warnings "-register-all".
Import ListNotations.
Local Open Scope string_scope.
Local Open Scope list_scope.

(* ===================================================================== *)
(** ** JavaScript values *)
(* ===================================================================== *)

Module JS.

(** Every object carries its own properties; the class records what kind of
    object it is: a plain object, an array (its properties are named by
    indices) or a function (identified by a number, its code is opaque). *)
Inductive objclass : Type := Plain | Array | Function (id : nat).

Inductive value : Type :=
| VUndef
| VNull
| VBool (b : bool)
| VNum (n : Z)
| VStr (s : string)
| VObj (c : objclass) (props : list (string * value)).

(** Own enumerable properties, in insertion order. *)
Definition props : Type := list (string * value).

(** [Boolean(v)]; numbers are integers here, so there is no NaN. *)
Definition truthy (v : value) : bool :=
  match v with
  | VUndef | VNull => false
  | VBool b => b
  | VNum n => negb (Z.eqb n 0)
  | VStr s => negb (String.eqb s "")
  | VObj _ _ => true
  end.

(** lodash [isObject]: an object or a function, not [null]. *)
Definition isObject (v : value) : bool :=
  match v with
  | VObj _ _ => true
  | _ => false
  end.

(** [typeof v === "object" && v !== null]. *)
Definition isObjectLike (v : value) : bool :=
  match v with
  | VObj Plain _ | VObj Array _ => true
  | _ => false
  end.

Fixpoint lookup (k : string) (o : props) : option value :=
  match o with
  | [] => None
  | (k', v) :: o' => if String.eqb k k' then Some v else lookup k o'
  end.

Definition has_key (k : string) (o : props) : bool :=
  match lookup k o with Some _ => true | None => false end.

(** [o[k] = v]: an existing property keeps its place, a new one is added
    last. *)
Fixpoint assign_prop (k : string) (v : value) (o : props) : props :=
  match o with
  | [] => [(k, v)]
  | (k', v') :: o' =>
      if String.eqb k k' then (k, v) :: o' else (k', v') :: assign_prop k v o'
  end.

(** [v[k]] where it cannot throw: own properties only (the properties a
    value inherits from its prototype are outside the model), [undefined]
    for a missing property and for a primitive. *)
Definition prop (v : value) (k : string) : value :=
  match v with
  | VObj _ o => match lookup k o with Some x => x | None => VUndef end
  | _ => VUndef
  end.

(** [{...target, ...src}] and [Object.assign(target, src)]: the own
    properties of an object are copied in order; [undefined], [null] and
    the other primitives contribute nothing (the indexed characters of a
    string are not modelled). *)
Definition spread (target : props) (src : value) : props :=
  match src with
  | VObj _ o => fold_left (fun t kv => assign_prop (fst kv) (snd kv) t) o target
  | _ => target
  end.

(** [Object.keys(o)] in insertion order (the reordering of integer-like
    keys is not modelled; only membership is used below). *)
Definition keys (o : props) : list string := map fst o.

(** An array literal. *)
Fixpoint index_props (i : nat) (l : list value) : props :=
  match l with
  | [] => []
  | v :: l' =>
      (NilZero.string_of_uint (Nat.to_uint i), v) :: index_props (S i) l'
  end.

Definition array_of (l : list value) : value := VObj Array (index_props 0 l).

(** The elements of an array built by a literal, in index order. *)
Definition elements (v : value) : list value :=
  match v with
  | VObj Array o => map snd o
  | _ => []
  end.

Definition is_array (v : value) : bool :=
  match v with VObj Array _ => true | _ => false end.

Definition is_string (v : value) : bool :=
  match v with VStr _ => true | _ => false end.

(** Errors the modelled code can throw. *)
Inductive error : Type :=
| ProvideError                 (* Error("You have to provide either paths[] or packageManifests[]") *)
| CheckError (param : string)  (* the ValueError of a failed [check] *)
| CyclicError                  (* ValueError("can't have cyclic with sequentialPrepare option") *)
| TypeError (what : string)    (* a property read on undefined or null, a call of a non-function *)
| EngineError (reason : value) (* the rejection of a semanticRelease() call *).

(** A computation that returns or throws. *)
Inductive exc (A : Type) : Type :=
| Ok (a : A)
| Throw (e : error).
Arguments Ok {A} a.
Arguments Throw {A} e.

Definition bind {A B : Type} (m : exc A) (f : A -> exc B) : exc B :=
  match m with
  | Ok a => f a
  | Throw e => Throw e
  end.

(** [v.k] where [v] may be [undefined] or [null]. *)
Definition get (v : value) (k : string) : exc value :=
  match v with
  | VUndef | VNull => Throw (TypeError k)
  | _ => Ok (prop v k)
  end.

End JS.

Notation "x <- m ;; f" := (JS.bind m (fun x => f))
  (at level 61, m at next level, right associativity).

(* ===================================================================== *)
(** ** The library functions the code calls *)
(* ===================================================================== *)

Module Lodash.
Import JS.

(** [_.uniq]: the first occurrence of each element is kept. *)
Fixpoint uniq (l : list nat) : list nat :=
  match l with
  | [] => []
  | x :: l' => x :: filter (fun y => negb (Nat.eqb y x)) (uniq l')
  end.

(** [_.toPairs] of an object: its own enumerable properties. *)
Definition toPairs (flags : value) : list (string * value) :=
  match flags with
  | VObj _ o => o
  | _ => []
  end.

(** [String.prototype.split] with a one-character separator. *)
Fixpoint split (sep : ascii) (s : string) : list string :=
  match s with
  | EmptyString => [EmptyString]
  | String c s' =>
      if Ascii.eqb c sep then EmptyString :: split sep s'
      else match split sep s' with
           | [] => [String c EmptyString]
           | h :: t => String c h :: t
           end
  end.

Fixpoint contains (c : ascii) (s : string) : bool :=
  match s with
  | EmptyString => false
  | String c' s' => Ascii.eqb c' c || contains c s'
  end.

Definition has_bracket (s : string) : bool :=
  contains "["%char s || contains "]"%char s.

Definition is_digit (c : ascii) : bool :=
  (48 <=? nat_of_ascii c)%nat && (nat_of_ascii c <=? 57)%nat.

Fixpoint all_digits (s : string) : bool :=
  match s with
  | EmptyString => true
  | String c s' => is_digit c && all_digits s'
  end.

Fixpoint digits_value (acc : N) (s : string) : N :=
  match s with
  | EmptyString => acc
  | String c s' => digits_value (acc * 10 + N.of_nat (nat_of_ascii c - 48)) s'
  end.

(** lodash [isIndex] on a string: a decimal numeral without a leading zero
    (or the numeral 0 itself), below [MAX_SAFE_INTEGER]. *)
Definition isIndex (s : string) : bool :=
  match s with
  | EmptyString => false
  | String c s' =>
      is_digit c && all_digits s'
      && (negb (Ascii.eqb c "0"%char) || String.eqb s' "")
      && (digits_value 0 s <? 9007199254740991)%N
  end.

(** The keys [baseSet] refuses to write. *)
Definition reserved (key : string) : bool :=
  String.eqb key "__proto__" || String.eqb key "constructor"
  || String.eqb key "prototype".

Section SetPath.

(** The path lodash reads from a name that contains a bracket ([a[0].b],
    [a["b"]]); that syntax is left to the library. *)
Variable bracketPath : props -> string -> list string.

(** [castPath(path, object)] for a string: a name that is a property of the
    object, or that has no dot, is one key; a dotted name is split at its
    dots ([stringToPath] on bracket-free names). *)
Definition castPath (path : string) (object : value) : list string :=
  match object with
  | VObj _ o =>
      if has_bracket path then bracketPath o path
      else if contains "."%char path && negb (has_key path o)
           then split "."%char path
           else [path]
  | _ => [path]
  end.

(** The loop of [baseSet]: at each key but the last, the value found is
    kept when it is an object and replaced by a new array or object
    otherwise; the last key receives the value; a reserved key ends the
    walk with what was written so far. *)
Fixpoint baseSet (path : list string) (val nested : value) : value :=
  match path with
  | [] => nested
  | key :: rest =>
      if reserved key then nested
      else
        match nested with
        | VObj c o =>
            let newValue :=
              match rest with
              | [] => val
              | next :: _ =>
                  let objValue := prop nested key in
                  baseSet rest val
                    (if isObject objValue then objValue
                     else VObj (if isIndex next then Array else Plain) [])
              end in
            VObj c (assign_prop key newValue o)
        | _ => nested
        end
  end.

(** [_.set(object, path, value)]. *)
Definition set (object : value) (path : string) (val : value) : value :=
  if isObject object then baseSet (castPath path object) val object
  else object.

End SetPath.

End Lodash.

(* ===================================================================== *)
(** ** bin/cli.js: [processFlags] *)
(* ===================================================================== *)

Module Cli.
Import JS Lodash.

Section ProcessFlags.

Variable bracketPath : props -> string -> list string.

(** [v.split(",")]: defined on strings; any other truthy value has no
    [split] method. *)
Definition split_commas (v : value) : exc value :=
  match v with
  | VStr s => Ok (array_of (map VStr (split ","%char s)))
  | _ => Throw (TypeError "split")
  end.

(** The reducer of [processFlags]. *)
Definition processFlag (m : value) (kv : string * value) : exc value :=
  let (k, v) := kv in
  if String.eqb k "ignorePackages" && truthy v
  then (l <- split_commas v ;; Ok (set bracketPath m k l))
  else Ok (set bracketPath m k v).

Fixpoint reduce (l : list (string * value)) (m : value) : exc value :=
  match l with
  | [] => Ok m
  | kv :: l' => m' <- processFlag m kv ;; reduce l' m'
  end.

Definition processFlags (flags : value) : exc value :=
  reduce (toPairs flags) (VObj Plain []).

End ProcessFlags.

(** *** Vocabulary for the properties of [processFlags] *)


(** The path a bracket-free flag name denotes: its dot-separated parts. *)
Definition flag_path (name : string) : list string := split "."%char name.



Fixpoint distinct (l : list string) : bool :=
  match l with
  | [] => true
  | x :: l' => negb (existsb (String.eqb x) l') && distinct l'
  end.




End Cli.

(* ===================================================================== *)
(** ** lib/multiSemanticRelease.js *)
(* ===================================================================== *)

Module Msr.
Import JS Lodash.

(** What semanticRelease() resolves with: [false] when the package was
    skipped, otherwise the object with lastRelease, commits, nextRelease and
    releases. *)
Inductive Result : Type :=
| Skipped
| Released (outcome : value).

Definition result_truthy (r : option Result) : bool :=
  match r with
  | Some (Released _) => true
  | _ => false
  end.

(** The Package typedef. A package is referred to by its position in the
    [packages] array: [localDeps] holds such references. [localDeps] and
    [result] are absent ([None], read as [undefined]) until they are
    assigned. *)
Record Package : Type := mkPackage {
  path : value;
  dir : value;
  name : value;
  manifest : value;
  deps : list string;
  options : value;
  plugins : value;
  loggerRef : value;
  localDeps : option (list nat);
  result : option Result
}.

Definition set_localDeps (pkg : Package) (l : list nat) : Package :=
  mkPackage (path pkg) (dir pkg) (name pkg) (manifest pkg) (deps pkg)
    (options pkg) (plugins pkg) (loggerRef pkg) (Some l) (result pkg).

Definition set_result (pkg : Package) (r : Result) : Package :=
  mkPackage (path pkg) (dir pkg) (name pkg) (manifest pkg) (deps pkg)
    (options pkg) (plugins pkg) (loggerRef pkg) (localDeps pkg) (Some r).

Record MultiContext : Type := mkContext {
  globalOptions : value;
  inputOptions : value;
  cwd : value;
  env : value;
  stdout : value;
  stderr : value
}.

(** The first parameter, [{ paths, packageManifests }]. *)
Record InputArguments : Type := mkInput {
  paths : value;
  packageManifests : value
}.

(** The third parameter; a field left [undefined] takes its default. *)
Record Settings : Type := mkSettings {
  s_cwd : value;
  s_env : value;
  s_stdout : value;
  s_stderr : value
}.

(** The blork types the function checks its parameters against. *)
Inductive blork_type : Type :=
| StringList      (* "string[]" *)
| ObjectlikeList  (* "objectlike[]" *)
| Directory       (* "directory" *)
| Objectlike      (* "objectlike" *)
| Stream          (* "stream" *).

(** Logger calls, by method and message template. *)
Inductive level : Type := Complete | Success | Failure.

Inductive message : Type :=
| Started (n : nat)          (* Started multirelease! Loading n packages... *)
| Loaded (name : value)      (* Loaded package name *)
| CyclicDependency           (* There is a cyclic dependency in packages ... *)
| Queued (n : nat)           (* Queued n packages! Starting release... *)
| ReleasedOf (k n : nat)     (* Released k of n packages, semantically! *).

(** The calls and writes a run performs, in order. Packages are named by
    their index. *)
Inductive event : Type :=
| ELog (l : level) (m : message)
| EGetPackage (source : value)
| EIsCyclicProject
| EGetSynchronizer
| ECreateInlinePluginCreator
| EGetLucky (probe : string) (i : nat)
| EWaitFor (probe : string) (i : nat)
| ECreateInlinePlugin (i : nat)
| ESemanticRelease (i : nat) (options : props) (cwd : value)
| ESetResult (i : nat) (r : Result).

(** The collaborators of the orchestrator: the host process, the modules
    of the repository that are not among the sources and the release
    engine's configuration loader. They are total functions here: what they
    read from the file system is fixed for a run, and their own failures
    are not modelled. The Synchronizer and the release engine act through
    the signals of a run, below. *)
Class Host : Type := mkHost {
  process_cwd : value;
  process_env : value;
  process_stdout : value;
  process_stderr : value;
  (* the "directory" and "stream" checkers added in lib/blork.js *)
  is_directory : value -> bool;
  is_stream : value -> bool;
  (* cleanPath(path, cwd); a missing second argument is undefined *)
  cleanPath : value -> value -> value;
  dirname : value -> value;
  getConfig : value -> value;
  getManifest : value -> value;
  (* getConfigSemantic(context, options): the pair { options, plugins } *)
  getConfigSemantic : value -> props -> value * value;
  (* createInlinePluginCreator(packages, multiContext, synchronizer, flags)
     applied to the package of a given index *)
  createInlinePluginCreator :
    list Package -> MultiContext -> value -> nat -> value;
  (* the string a value that is not a string converts to *)
  ToString : value -> string
}.

(** What the environment does to a run: the synchronizer resolves the
    promise a package waits for, the release engine settles the promise of a
    semanticRelease() call. *)
Inductive engine_outcome : Type :=
| Resolve (r : Result)
| Reject (reason : value).

Inductive signal : Type :=
| Wake (i : nat)
| Settle (i : nat) (o : engine_outcome).

(** The state of the task of one package (the async callback mapped over
    [packages]). *)
Inductive task : Type :=
| WaitReady      (* suspended at [await waitFor("_readyForRelease", pkg)] *)
| Releasing      (* suspended at [await semanticRelease(...)] *)
| Done           (* fulfilled *)
| Failed (e : error).

(** The promise multiSemanticRelease() returned. *)
Inductive completion : Type :=
| Pending
| Returned (packages : list Package)
| Thrown (e : error).

Record state : Type := mkState {
  st_packages : list Package;
  st_tasks : list task;
  st_main : completion;
  st_trace : list event
}.

Section Orchestrator.

Context {H : Host}.

(** blork's [check], as a test: [false] is the thrown ValueError. A list
    type holds of an array all of whose elements are of the type;
    "objectlike" of any object but a function; "directory" and "stream" are
    the host's. *)
Definition check (v : value) (t : blork_type) : bool :=
  match t with
  | StringList => is_array v && forallb is_string (elements v)
  | ObjectlikeList => is_array v && forallb isObjectLike (elements v)
  | Directory => is_directory v
  | Objectlike => isObjectLike v
  | Stream => is_stream v
  end.

Definition default (v d : value) : value :=
  match v with VUndef => d | _ => v end.

(** [name + "@${version}"]. *)
Definition string_plus (v : value) (s : string) : value :=
  VStr (String.append (match v with VStr n => n | _ => ToString v end) s).

Definition resolvePackageOrPath (packageOrPath cwd : value) : value :=
  match packageOrPath with
  | VStr _ =>
      let path := cleanPath packageOrPath cwd in
      let dir := dirname path in
      let manifest := getManifest path in
      VObj Plain [("manifest", manifest); ("dir", dir); ("path", path)]
  | _ => packageOrPath
  end.

(** The object assembled by [Object.assign({}, globalOptions, pkgOptions,
    inputOptions)]. *)
Definition finalOptions (globalOptions pkgOptions inputOptions : value) : props :=
  spread (spread (spread [] globalOptions) pkgOptions) inputOptions.

Definition fake_logger : value :=
  VObj Plain [("error", VObj (Function 0) []); ("log", VObj (Function 1) [])].

Definition getPackage (packageOrPath : value) (ctx : MultiContext)
  : exc Package :=
  let r := resolvePackageOrPath packageOrPath (cwd ctx) in
  dir <- get r "dir" ;;
  path <- get r "path" ;;
  manifest <- get r "manifest" ;;
  name <- get manifest "name" ;;
  d1 <- get manifest "dependencies" ;;
  d2 <- get manifest "devDependencies" ;;
  d3 <- get manifest "peerDependencies" ;;
  d4 <- get manifest "optionalDependencies" ;;
  let deps := keys (spread (spread (spread (spread [] d1) d2) d3) d4) in
  let pkgOptions := getConfig dir in
  let final := finalOptions (globalOptions ctx) pkgOptions (inputOptions ctx) in
  let context :=
    VObj Plain [("cwd", dir); ("env", env ctx); ("stdout", stdout ctx);
                ("stderr", stderr ctx); ("logger", fake_logger)] in
  let (options, plugins) := getConfigSemantic context final in
  Ok (mkPackage path dir name manifest deps options plugins fake_logger
        None None).

(** [Promise.all(sources.map(...))]: every call is made; the first
    rejection, in array order, is the one thrown. *)
Fixpoint loadPackages (sources : list value) (ctx : MultiContext)
  : exc (list Package) :=
  match sources with
  | [] => Ok []
  | s :: rest =>
      pkg <- getPackage s ctx ;;
      pkgs <- loadPackages rest ctx ;;
      Ok (pkg :: pkgs)
  end.

(** [d === p.name] *)
Definition named (d : string) (p : Package) : bool :=
  match name p with
  | VStr n => String.eqb d n
  | _ => false
  end.

(** [packages.find((p) => d === p.name)], as a reference. *)
Fixpoint find_from (i : nat) (d : string) (packages : list Package)
  : option nat :=
  match packages with
  | [] => None
  | p :: rest => if named d p then Some i else find_from (S i) d rest
  end.

Definition find (packages : list Package) (d : string) : option nat :=
  find_from 0 d packages.

(** [.filter(Boolean)] on the outcome of [find]: undefined is dropped, an
    object is kept. *)
Fixpoint filter_Boolean (l : list (option nat)) : list nat :=
  match l with
  | [] => []
  | Some i :: l' => i :: filter_Boolean l'
  | None :: l' => filter_Boolean l'
  end.

Definition resolveLocalDeps (packages : list Package) (pkg : Package)
  : list nat :=
  uniq (filter_Boolean (map (find packages) (deps pkg))).

(** The [forEach] that links the packages. *)
Definition linkPackages (packages : list Package) : list Package :=
  map (fun pkg => set_localDeps pkg (resolveLocalDeps packages pkg)) packages.

(** The dependency edges: from a package to each of its [localDeps]. *)
Definition successors (packages : list Package) (i : nat) : list nat :=
  match nth_error packages i with
  | Some p => match localDeps p with Some l => l | None => [] end
  | None => []
  end.

(** [target] is reached from [from] along at least one and at most [fuel]
    edges. *)
Fixpoint reaches (fuel : nat) (g : nat -> list nat) (target from : nat)
  : bool :=
  match fuel with
  | O => false
  | S fuel' =>
      existsb (fun j => Nat.eqb j target || reaches fuel' g target j) (g from)
  end.

(** Modelled from the spec: lib/isCyclicProject.js is not among the
    sources. The specification describes it as a directed-cycle check over
    the dependency edges, exposed as the predicate "graph contains at least
    one cycle". Here: some package reaches itself in at most as many steps
    as there are packages. *)
Definition isCyclicProject (packages : list Package) : bool :=
  existsb (fun i => reaches (List.length packages) (successors packages) i i)
    (seq 0 (List.length packages)).

(** What the specification means by a cyclic graph: some package is
    joined to itself by a walk of at least one [localDeps] edge. *)
Inductive walk (g : nat -> list nat) : nat -> nat -> Prop :=
| walk_edge (i j : nat) : In j (g i) -> walk g i j
| walk_step (i j k : nat) : In j (g i) -> walk g j k -> walk g i k.

Definition has_cycle (packages : list Package) : Prop :=
  exists i, walk (successors packages) i i.

(** The checks at the top of multiSemanticRelease, in order. *)
Definition checkParams (args : InputArguments) (cwd env stdout stderr : value)
  : exc unit :=
  if truthy (paths args) && negb (check (paths args) StringList)
  then Throw (CheckError "paths")
  else if truthy (packageManifests args)
          && negb (check (packageManifests args) ObjectlikeList)
  then Throw (CheckError "packageManifests")
  else if negb (truthy (paths args)) && negb (truthy (packageManifests args))
  then Throw ProvideError
  else if negb (check cwd Directory) then Throw (CheckError "cwd")
  else if negb (check env Objectlike) then Throw (CheckError "env")
  else if negb (check stdout Stream) then Throw (CheckError "stdout")
  else if negb (check stderr Stream) then Throw (CheckError "stderr")
  else Ok tt.

(** The options object releasePackage() hands to semanticRelease(). *)
Definition releaseOptions (flags : value) (pkg : Package) (inlinePlugin : value)
  : props :=
  let pkgOptions := options pkg in
  let merged := spread (spread (spread [] flags) pkgOptions) inlinePlugin in
  let tagged :=
    assign_prop "tagFormat" (string_plus (name pkg) "@${version}") merged in
  assign_prop "_pkgOptions" pkgOptions tagged.


(** releasePackage() up to its [await]: the events of the call. *)
Definition releasePackage_call (createInlinePlugin : nat -> value)
  (flags : value) (i : nat) (pkg : Package) : list event :=
  [ECreateInlinePlugin i;
   ESemanticRelease i (releaseOptions flags pkg (createInlinePlugin i))
     (dir pkg)].

(** [l[i] = x] on a list that has an index [i]. *)
Fixpoint update {A : Type} (i : nat) (x : A) (l : list A) : list A :=
  match l, i with
  | [], _ => []
  | _ :: l', O => x :: l'
  | y :: l', S i' => y :: update i' x l'
  end.

Definition is_done (t : task) : bool :=
  match t with Done => true | _ => false end.

Definition released (packages : list Package) : nat :=
  List.length (filter (fun pkg => result_truthy (result pkg)) packages).

(** The code after [await Promise.all(...)]: it runs once, when every task
    is fulfilled and none has rejected before. *)
Definition conclude (st : state) : state :=
  match st_main st with
  | Pending =>
      if forallb is_done (st_tasks st)
      then mkState (st_packages st) (st_tasks st)
             (Returned (st_packages st))
             (st_trace st ++
                [ELog Complete
                   (ReleasedOf (released (st_packages st))
                      (List.length (st_packages st)))])
      else st
  | _ => st
  end.

(** A task as it stands after [packages.map] called its callback: the
    callback ran to its first [await]. *)
Definition startTask (createInlinePlugin : nat -> value) (flags : value)
  (i : nat) (pkg : Package) : task * list event :=
  if truthy (prop flags "sequentialInit")
  then (WaitReady,
        [EGetLucky "_readyForRelease" i; EWaitFor "_readyForRelease" i])
  else (Releasing, releasePackage_call createInlinePlugin flags i pkg).

Fixpoint startTasks (createInlinePlugin : nat -> value) (flags : value)
  (i : nat) (packages : list Package) : list task * list event :=
  match packages with
  | [] => ([], [])
  | pkg :: rest =>
      let (t, es) := startTask createInlinePlugin flags i pkg in
      let (ts, es') := startTasks createInlinePlugin flags (S i) rest in
      (t :: ts, es ++ es')
  end.

(** From "Queued" to the [await] on [Promise.all]. *)
Definition launch (createInlinePlugin : nat -> value) (flags : value)
  (packages : list Package) (trace : list event) : state :=
  let (tasks, started) := startTasks createInlinePlugin flags 0 packages in
  conclude
    (mkState packages tasks Pending
       (trace ++
          [ELog Complete (Queued (List.length packages)); EGetSynchronizer;
           ECreateInlinePluginCreator] ++ started)).

(** One signal of the environment. A woken task calls releasePackage(); a
    resolved call writes the result of its package and fulfils the task; a
    rejected call rejects the task, and the first rejected task rejects the
    promise of the run ([Promise.all]) while the other tasks go on. A
    signal for a task that does not wait for it changes nothing. *)
Definition step (createInlinePlugin : nat -> value) (flags : value)
  (st : state) (s : signal) : state :=
  match s with
  | Wake i =>
      match nth_error (st_tasks st) i, nth_error (st_packages st) i with
      | Some WaitReady, Some pkg =>
          mkState (st_packages st) (update i Releasing (st_tasks st))
            (st_main st)
            (st_trace st ++ releasePackage_call createInlinePlugin flags i pkg)
      | _, _ => st
      end
  | Settle i (Resolve r) =>
      match nth_error (st_tasks st) i, nth_error (st_packages st) i with
      | Some Releasing, Some pkg =>
          conclude
            (mkState (update i (set_result pkg r) (st_packages st))
               (update i Done (st_tasks st)) (st_main st)
               (st_trace st ++ [ESetResult i r]))
      | _, _ => st
      end
  | Settle i (Reject reason) =>
      match nth_error (st_tasks st) i with
      | Some Releasing =>
          mkState (st_packages st)
            (update i (Failed (EngineError reason)) (st_tasks st))
            (match st_main st with
             | Pending => Thrown (EngineError reason)
             | m => m
             end)
            (st_trace st)
      | _ => st
      end
  end.

Definition run (createInlinePlugin : nat -> value) (flags : value)
  (st : state) (schedule : list signal) : state :=
  fold_left (step createInlinePlugin flags) schedule st.

Definition default_flags : value := VObj Plain [("deps", VObj Plain [])].

(** The run up to the cycle check: the packages, loaded and linked, the
    context and the trace so far; or the error thrown and the trace up to
    it. *)
Definition load (args : InputArguments) (inputOptions : value)
  (settings : Settings)
  : list event * exc (list Package * MultiContext) :=
  let inputOptions := default inputOptions (VObj Plain []) in
  let cwd := default (s_cwd settings) process_cwd in
  let env := default (s_env settings) process_env in
  let stdout := default (s_stdout settings) process_stdout in
  let stderr := default (s_stderr settings) process_stderr in
  match checkParams args cwd env stdout stderr with
  | Throw e => ([], Throw e)
  | Ok _ =>
      let cwd := cleanPath cwd VUndef in
      let sources :=
        if truthy (paths args) then paths args else packageManifests args in
      let globalOptions := getConfig cwd in
      let multiContext :=
        mkContext globalOptions inputOptions cwd env stdout stderr in
      let trace :=
        ELog Complete (Started (List.length (elements sources)))
        :: map EGetPackage (elements sources) in
      match loadPackages (elements sources) multiContext with
      | Throw e => (trace, Throw e)
      | Ok loaded =>
          let packages := linkPackages loaded in
          (trace ++ map (fun pkg => ELog Success (Loaded (name pkg))) packages,
           Ok (packages, multiContext))
      end
  end.

(** multiSemanticRelease(), run against a schedule of signals; the state it
    is in when the schedule is exhausted. *)
Definition multiSemanticRelease (args : InputArguments) (inputOptions : value)
  (settings : Settings) (flags : value) (schedule : list signal) : state :=
  let flags := default flags default_flags in
  match load args inputOptions settings with
  | (trace, Throw e) => mkState [] [] (Thrown e) trace
  | (trace, Ok (packages, multiContext)) =>
      match get flags "sequentialPrepare" with
      | Throw e => mkState packages [] (Thrown e) trace
      | Ok sequentialPrepare =>
          if truthy sequentialPrepare
          then
            if isCyclicProject packages
            then mkState packages [] (Thrown CyclicError)
                   (trace ++
                      [EIsCyclicProject; ELog Failure CyclicDependency])
            else
              let createInlinePlugin :=
                createInlinePluginCreator packages multiContext flags in
              run createInlinePlugin flags
                (launch createInlinePlugin flags packages
                   (trace ++ [EIsCyclicProject]))
                schedule
          else
            let createInlinePlugin :=
              createInlinePluginCreator packages multiContext flags in
            run createInlinePlugin flags
              (launch createInlinePlugin flags packages trace) schedule
      end
  end.

End Orchestrator.

End Msr.

(* ===================================================================== *)
(** ** A small repository to run the model on *)
(* ===================================================================== *)

Module Sample.
Import JS Lodash Msr.

Definition a_stream : value := VObj Plain [("writable", VBool true)].

Definition inline_plugin : value :=
  VObj Plain
    [("verifyConditions", VObj (Function 10) []);
     ("analyzeCommits", VObj (Function 11) []);
     ("generateNotes", VObj (Function 12) []);
     ("prepare", VObj (Function 13) []);
     ("publish", VObj (Function 14) [])].

(** The configuration files of the sample repository: one, in the directory
    of pkg-a, that switches dry runs off. *)
Definition sample_config (dir : value) : value :=
  match dir with
  | VStr d =>
      if String.eqb d "/repo/pkg-a" then VObj Plain [("dryRun", VBool false)]
      else VObj Plain []
  | _ => VObj Plain []
  end.

(** A host whose directories are the strings, whose streams are the
    objects marked writable, and whose release engine takes the options as
    they are. *)
Definition host : Host :=
  mkHost (VStr "/repo") (VObj Plain []) a_stream a_stream
    is_string
    (fun v => truthy (prop v "writable"))
    (fun p _ => p)
    (fun p => p)
    sample_config
    (fun _ => VUndef)
    (fun _ final => (VObj Plain final, VObj Plain []))
    (fun _ _ _ _ => inline_plugin)
    (fun _ => "undefined").

Definition manifest_of (name : string) (dependencies : list string) : value :=
  VObj Plain
    [("name", VStr name);
     ("dependencies", VObj Plain (map (fun d => (d, VStr "*")) dependencies))].

Definition source (name : string) (dependencies : list string) : value :=
  VObj Plain
    [("dir", VStr (String.append "/repo/" name));
     ("manifest", manifest_of name dependencies)].

(** Two packages, pkg-a depending on pkg-b and on an external package. *)
Definition two_packages : InputArguments :=
  mkInput VUndef
    (array_of [source "pkg-a" ["pkg-b"; "lodash"]; source "pkg-b" []]).

(** Two packages that depend on each other. *)
Definition cyclic_packages : InputArguments :=
  mkInput VUndef
    (array_of [source "pkg-a" ["pkg-b"]; source "pkg-b" ["pkg-a"]]).

(** Two records under one name, and a package that depends on that name. *)
Definition same_name_packages : InputArguments :=
  mkInput VUndef
    (array_of [source "pkg-a" []; source "pkg-a" []; source "pkg-b" ["pkg-a"]]).

(** A loaded package of the sample repository, before linking. *)
Definition package (name : string) (dependencies : list string) : Package :=
  mkPackage VUndef (VStr (String.append "/repo/" name)) (VStr name)
    (manifest_of name dependencies) dependencies (VObj Plain [])
    (VObj Plain []) fake_logger None None.

(** pkg-a as the run on [two_packages] loads and links it. *)
Definition linked_pkg_a : Package :=
  mkPackage VUndef (VStr "/repo/pkg-a") (VStr "pkg-a")
    (manifest_of "pkg-a" ["pkg-b"; "lodash"]) ["pkg-b"; "lodash"]
    (VObj Plain [("dryRun", VBool false)]) (VObj Plain []) fake_logger
    (Some [1]) None.

Definition no_settings : Settings := mkSettings VUndef VUndef VUndef VUndef.

Definition a_release : Result :=
  Released (VObj Plain [("nextRelease", VObj Plain [("version", VStr "1.2.0")])]).

(** The flags of the command line, with their defaults. *)
Definition cli_flags : value :=
  VObj Plain
    [("sequentialInit", VBool false);
     ("sequentialPrepare", VBool false);
     ("deps.bump", VStr "override");
     ("deps.release", VStr "patch");
     ("ignorePackages", VStr "packages/a/**,packages/b/**");
     ("dryRun", VBool true)].

Definition no_brackets (o : props) (name : string) : list string := [name].

End Sample.

(* ===================================================================== *)
(** ** A repository on disk, to run the model on paths *)
(* ===================================================================== *)

Module Disk.
Import JS Lodash Msr.

Definition path_a : string := "/repo/packages/a/package.json".
Definition path_b : string := "/repo/packages/b/package.json".

(** The package.json files: package a names pkg-b twice, as a dependency
    and as a development dependency. *)
Definition manifest_a : value :=
  VObj Plain
    [("name", VStr "pkg-a");
     ("dependencies", VObj Plain [("pkg-b", VStr "^1.0.0")]);
     ("devDependencies",
      VObj Plain [("pkg-b", VStr "^1.0.0"); ("mocha", VStr "^9.0.0")]);
     ("optionalDependencies", VObj Plain [("fsevents", VStr "*")])].

Definition manifest_b : value :=
  VObj Plain [("name", VStr "pkg-b"); ("version", VStr "1.0.0")].

Definition read_manifest (path : value) : value :=
  match path with
  | VStr p =>
      if String.eqb p path_a then manifest_a
      else if String.eqb p path_b then manifest_b
      else VUndef
  | _ => VUndef
  end.

Definition directory_of (path : value) : value :=
  match path with
  | VStr p =>
      if String.eqb p path_a then VStr "/repo/packages/a"
      else if String.eqb p path_b then VStr "/repo/packages/b"
      else path
  | _ => path
  end.

(** A relative path is resolved against the working directory. *)
Definition absolute (path cwd : value) : value :=
  match path, cwd with
  | VStr p, VStr c =>
      if String.prefix "/" p then path
      else VStr (String.append c (String.append "/" p))
  | _, _ => path
  end.

(** A host that reads the manifests from the paths. *)
Definition host : Host :=
  mkHost (VStr "/repo") (VObj Plain []) Sample.a_stream Sample.a_stream
    is_string
    (fun v => truthy (prop v "writable"))
    absolute
    directory_of
    (fun _ => VObj Plain [])
    read_manifest
    (fun _ final => (VObj Plain final, VObj Plain []))
    (fun _ _ _ _ => Sample.inline_plugin)
    (fun _ => "undefined").

Definition two_paths : InputArguments :=
  mkInput
    (array_of [VStr "packages/a/package.json"; VStr "packages/b/package.json"])
    VUndef.

End Disk.

(* ===================================================================== *)
(** ** Objects: reading after writing *)
(* ===================================================================== *)

Module JSFacts.
Import JS.

Lemma lookup_assign_same (k : string) (v : value) (o : props) :
  lookup k (assign_prop k v o) = Some v.
Proof.
  induction o as [|[k' v'] o IH]; simpl.
  - now rewrite String.eqb_refl.
  - destruct (String.eqb k k') eqn:E; simpl; rewrite ?String.eqb_refl, ?E; auto.
Qed.

Lemma lookup_assign_other (k k' : string) (v : value) (o : props) :
  k <> k' -> lookup k (assign_prop k' v o) = lookup k o.
Proof.
  intros Hne. induction o as [|[k1 v1] o IH]; simpl.
  - destruct (String.eqb_spec k k'); congruence.
  - destruct (String.eqb_spec k' k1) as [->|Hk1]; simpl.
    + destruct (String.eqb_spec k k1); congruence.
    + destruct (String.eqb_spec k k1); auto.
Qed.


Lemma lookup_not_in (k : string) (o : props) :
  ~ In k (keys o) -> lookup k o = None.
Proof.
  induction o as [|[k' v'] o IH]; simpl; intros Hn; auto.
  destruct (String.eqb_spec k k') as [->|Hne].
  - exfalso. auto.
  - apply IH. intros Hin. auto.
Qed.

Definition or_else {A : Type} (a b : option A) : option A :=
  match a with Some _ => a | None => b end.

(** The value a property list gives a key when it is copied: the last
    binding decides. An object has a key once, and then this is [lookup]. *)
Fixpoint lookup_last (k : string) (o : props) : option value :=
  match o with
  | [] => None
  | (k', v) :: o' =>
      or_else (lookup_last k o') (if String.eqb k k' then Some v else None)
  end.

(** The own property of a value that [spread] copies. *)
Definition own (v : value) (k : string) : option value :=
  match v with
  | VObj _ o => lookup_last k o
  | _ => None
  end.

Lemma lookup_last_unique (k : string) (o : props) :
  NoDup (keys o) -> lookup_last k o = lookup k o.
Proof.
  induction o as [|[k1 v1] o IH]; simpl; intros Hnd; auto.
  inversion Hnd as [|? ? Hnotin Hnd']; subst. rewrite IH by assumption.
  destruct (String.eqb_spec k k1) as [->|Hne].
  - now rewrite (lookup_not_in k1 o Hnotin).
  - destruct (lookup k o); reflexivity.
Qed.



End JSFacts.

(* ===================================================================== *)
(** ** [split], [baseSet] and [processFlags] *)
(* ===================================================================== *)

Module CliFacts.
Import JS Lodash Cli JSFacts.

Lemma split_not_nil (sep : ascii) (s : string) : split sep s <> [].
Proof.
  destruct s as [|c s]; simpl; [discriminate|].
  destruct (Ascii.eqb c sep); [discriminate|].
  destruct (split sep s); discriminate.
Qed.

Lemma split_parts (sep : ascii) (s x : string) :
  In x (split sep s) -> contains sep x = false.
Proof.
  revert x. induction s as [|c s IH]; simpl; intros x Hin.
  - destruct Hin as [<-|[]]. reflexivity.
  - destruct (Ascii.eqb c sep) eqn:E.
    + destruct Hin as [<-|Hin]; [reflexivity|auto].
    + destruct (split sep s) as [|h t] eqn:Es.
      * destruct Hin as [<-|[]]. simpl. now rewrite E.
      * destruct Hin as [<-|Hin].
        -- simpl. rewrite E. simpl. apply IH. now left.
        -- apply IH. now right.
Qed.

Lemma split_without_sep (sep : ascii) (s : string) :
  contains sep s = false -> split sep s = [s].
Proof.
  induction s as [|c s IH]; simpl; auto.
  intros Hc. apply orb_false_iff in Hc as [Hc Hs].
  rewrite Hc, (IH Hs). reflexivity.
Qed.

(** The top-level keys of an accumulator of [processFlags] have no dot. *)
Definition top_dotfree (m : value) : Prop :=
  match m with
  | VObj _ o => forall k, In k (keys o) -> contains "."%char k = false
  | _ => True
  end.

Lemma has_key_false (k : string) (o : props) :
  ~ In k (keys o) -> has_key k o = false.
Proof. intros Hn. unfold has_key. now rewrite (lookup_not_in k o Hn). Qed.

Lemma castPath_flag (bp : props -> string -> list string) (name : string)
  (m : value) :
  isObject m = true -> top_dotfree m -> has_bracket name = false ->
  castPath bp name m = flag_path name.
Proof.
  intros Hobj Hdf Hb. destruct m; try discriminate. simpl in *.
  rewrite Hb. unfold flag_path.
  destruct (contains "."%char name) eqn:Ed; simpl.
  - rewrite has_key_false; [reflexivity|].
    intros Hin. apply Hdf in Hin. congruence.
  - now rewrite split_without_sep.
Qed.











Lemma distinct_NoDup (l : list string) : distinct l = true -> NoDup l.
Proof.
  induction l as [|x l IH]; simpl; intros Hd; constructor.
  - apply andb_true_iff in Hd as [Hx _]. apply negb_true_iff in Hx.
    intros Hin. assert (existsb (String.eqb x) l = true); [|congruence].
    apply existsb_exists. exists x. split; auto. apply String.eqb_refl.
  - apply andb_true_iff in Hd as [_ Hd]. auto.
Qed.

Lemma lookup_of_in (k : string) (v : value) (o : props) :
  NoDup (keys o) -> In (k, v) o -> lookup k o = Some v.
Proof.
  induction o as [|[k' v'] o IH]; simpl; intros Hnd Hin; [contradiction|].
  inversion Hnd as [|? ? Hnotin Hnd']; subst.
  destruct Hin as [Heq|Hin].
  - inversion Heq; subst. now rewrite String.eqb_refl.
  - destruct (String.eqb_spec k k') as [->|Hne]; auto.
    exfalso. apply Hnotin. change (In (fst (k', v)) (map fst o)).
    now apply in_map.
Qed.

Section Reduce.

Variable bp : props -> string -> list string.


Lemma set_flag (m : value) (k : string) (v : value) :
  isObject m = true -> top_dotfree m -> has_bracket k = false ->
  set bp m k v = baseSet (flag_path k) v m.
Proof.
  intros Hobj Hdf Hb. unfold set. rewrite Hobj.
  now rewrite castPath_flag.
Qed.


End Reduce.




(** What the sample flags become. *)
Example processFlags_cli_flags :
  processFlags Sample.no_brackets Sample.cli_flags
  = Ok (VObj Plain
          [("sequentialInit", VBool false);
           ("sequentialPrepare", VBool false);
           ("deps", VObj Plain [("bump", VStr "override");
                                ("release", VStr "patch")]);
           ("ignorePackages",
            array_of [VStr "packages/a/**"; VStr "packages/b/**"]);
           ("dryRun", VBool true)]).
Proof. reflexivity. Qed.


(** The other conditions are needed as well: a flag whose name is a key
    lodash refuses to write is dropped, and a truthy ignorePackages that is
    not a string has no [split] method. *)
Example processFlags_reserved_name :
  processFlags Sample.no_brackets (VObj Plain [("constructor", VNum 1)])
  = Ok (VObj Plain []).
Proof. reflexivity. Qed.

Example processFlags_ignorePackages_not_a_string :
  processFlags Sample.no_brackets (VObj Plain [("ignorePackages", VBool true)])
  = Throw (TypeError "split").
Proof. reflexivity. Qed.

End CliFacts.

(* ===================================================================== *)
(** ** The dependency graph *)
(* ===================================================================== *)

Module GraphFacts.
Import JS Lodash Msr.

Lemma uniq_In (x : nat) (l : list nat) : In x (uniq l) <-> In x l.
Proof.
  induction l as [|y l IH]; simpl; [tauto|].
  rewrite filter_In, IH, negb_true_iff, Nat.eqb_neq.
  destruct (Nat.eq_dec y x); intuition congruence.
Qed.

Lemma NoDup_filter {A : Type} (f : A -> bool) (l : list A) :
  NoDup l -> NoDup (filter f l).
Proof.
  induction 1 as [|x l Hx Hnd IH]; simpl; [constructor|].
  destruct (f x); auto. constructor; auto.
  rewrite filter_In. tauto.
Qed.

Lemma uniq_NoDup (l : list nat) : NoDup (uniq l).
Proof.
  induction l as [|y l IH]; simpl; constructor.
  - rewrite filter_In, negb_true_iff, Nat.eqb_neq. tauto.
  - now apply NoDup_filter.
Qed.

Section Graph.

Context {H : Host}.

Lemma filter_Boolean_In (j : nat) (l : list (option nat)) :
  In j (filter_Boolean l) <-> In (Some j) l.
Proof.
  induction l as [|[i|] l IH]; simpl; [tauto| |].
  - rewrite IH. intuition congruence.
  - rewrite IH. intuition congruence.
Qed.

(** [find] returns the first package of the name. *)
Lemma find_from_first (d : string) (packages : list Package) :
  forall i j,
    find_from i d packages = Some j <->
    exists n q, j = i + n /\ nth_error packages n = Some q /\ named d q = true
                /\ forall m p, m < n -> nth_error packages m = Some p ->
                               named d p = false.
Proof.
  induction packages as [|p rest IH]; intros i j; simpl.
  - split; [discriminate|]. intros (n & q & _ & Hn & _). destruct n; discriminate.
  - destruct (named d p) eqn:E.
    + split.
      * intros [= <-]. exists 0, p. repeat split; auto; try lia.
      * intros (n & q & -> & Hn & Hq & Hfirst). destruct n as [|n].
        -- f_equal. lia.
        -- specialize (Hfirst 0 p (Nat.lt_0_succ n) eq_refl). congruence.
    + rewrite IH. split.
      * intros (n & q & -> & Hn & Hq & Hfirst). exists (S n), q.
        repeat split; auto; try lia.
        intros m p0 Hm Hp0. destruct m as [|m]; simpl in Hp0.
        -- congruence.
        -- apply (Hfirst m); auto. lia.
      * intros (n & q & -> & Hn & Hq & Hfirst). destruct n as [|n]; simpl in Hn.
        -- congruence.
        -- exists n, q. repeat split; auto; try lia.
           intros m p0 Hm Hp0. apply (Hfirst (S m)); auto. lia.
Qed.

Lemma named_name (d : string) (p : Package) :
  named d p = true <-> name p = VStr d.
Proof.
  unfold named. destruct (name p); try (split; [discriminate|congruence]).
  rewrite String.eqb_eq. split; congruence.
Qed.

(** Whatever the names, a reference is in [localDeps] exactly when [find]
    resolves one of the declared dependency names to it. *)
Lemma resolveLocalDeps_find (packages : list Package) (pkg : Package) (j : nat) :
  In j (resolveLocalDeps packages pkg)
  <-> exists d, In d (deps pkg) /\ find packages d = Some j.
Proof.
  unfold resolveLocalDeps. rewrite uniq_In, filter_Boolean_In, in_map_iff.
  split; intros (d & H1 & H2); exists d; auto.
Qed.

Lemma linkPackages_nth (packages : list Package) (i : nat) (pkg : Package) :
  nth_error (linkPackages packages) i = Some pkg <->
  exists p, nth_error packages i = Some p
            /\ pkg = set_localDeps p (resolveLocalDeps packages p).
Proof.
  unfold linkPackages. rewrite nth_error_map.
  destruct (nth_error packages i) as [p|]; simpl.
  - split.
    + intros [= <-]. eauto.
    + intros (p' & [= <-] & ->). reflexivity.
  - split; [discriminate|]. intros (p' & Hp & _). discriminate.
Qed.

Lemma linkPackages_length (packages : list Package) :
  List.length (linkPackages packages) = List.length packages.
Proof. unfold linkPackages. apply length_map. Qed.



(** *** The cycle check *)

Fixpoint chain (g : nat -> list nat) (a : nat) (l : list nat) : Prop :=
  match l with
  | [] => True
  | v :: l' => In v (g a) /\ chain g v l'
  end.

Lemma last_nonempty (l : list nat) (x d d' : nat) :
  last (x :: l) d = last (x :: l) d'.
Proof.
  revert x. induction l as [|y l IH]; intros x; [reflexivity|].
  change (last (y :: l) d = last (y :: l) d'). apply IH.
Qed.

Lemma last_cons (l : list nat) (x d : nat) : last (x :: l) d = last l x.
Proof.
  destruct l as [|y l]; [reflexivity|].
  change (last (y :: l) d = last (y :: l) x). apply last_nonempty.
Qed.

Lemma last_app_cons (l1 l2 : list nat) (x d : nat) :
  last (l1 ++ x :: l2) d = last l2 x.
Proof.
  revert d. induction l1 as [|y l1 IH]; intros d.
  - apply last_cons.
  - change (last (y :: (l1 ++ x :: l2)) d = last l2 x).
    rewrite last_cons. apply IH.
Qed.

Lemma walk_chain (g : nat -> list nat) (a b : nat) :
  walk g a b -> exists l, l <> [] /\ chain g a l /\ last l a = b.
Proof.
  induction 1 as [i j Hij|i j k Hij _ (l & Hne & Hc & Hl)].
  - exists [j]. simpl. repeat split; auto. discriminate.
  - exists (j :: l). repeat split; auto; [discriminate|].
    now rewrite last_cons.
Qed.

Lemma chain_app (g : nat -> list nat) (l1 l2 : list nat) (a : nat) :
  chain g a (l1 ++ l2) <-> chain g a l1 /\ chain g (last l1 a) l2.
Proof.
  revert a. induction l1 as [|x l1 IH]; intros a; [simpl; tauto|].
  rewrite last_cons. simpl. rewrite IH. tauto.
Qed.

Lemma chain_cut (g : nat -> list nat) (a v : nat) (l1 l2 l3 : list nat) :
  chain g a (l1 ++ v :: l2 ++ v :: l3) -> chain g a (l1 ++ v :: l3).
Proof.
  rewrite !chain_app. simpl. intros (H1 & Hv & H2).
  apply chain_app in H2 as (_ & H3). simpl in H3. tauto.
Qed.

Lemma repeated_or_NoDup (l : list nat) :
  NoDup l \/ exists v l1 l2 l3, l = l1 ++ v :: l2 ++ v :: l3.
Proof.
  induction l as [|x l [IH|(v & l1 & l2 & l3 & ->)]].
  - left. constructor.
  - destruct (in_dec Nat.eq_dec x l) as [Hin|Hnin].
    + right. apply in_split in Hin as (l2 & l3 & ->).
      exists x, [], l2, l3. reflexivity.
    + left. now constructor.
  - right. exists v, (x :: l1), l2, l3. reflexivity.
Qed.

Lemma chain_in_range (g : nat -> list nat) (n : nat) :
  (forall i j, In j (g i) -> j < n) ->
  forall l a, chain g a l -> forall v, In v l -> v < n.
Proof.
  intros Hr. induction l as [|x l IH]; simpl; intros a Hc v Hin; [contradiction|].
  destruct Hc as [Hx Hc]. destruct Hin as [<-|Hin]; eauto.
Qed.

(** A walk can be taken without passing a package twice, so within as many
    steps as there are packages. *)
Lemma chain_short (g : nat -> list nat) (n : nat) :
  (forall i j, In j (g i) -> j < n) ->
  forall k l a, List.length l <= k -> l <> [] -> chain g a l ->
    exists l', l' <> [] /\ chain g a l' /\ last l' a = last l a
               /\ List.length l' <= n.
Proof.
  intros Hr. induction k as [|k IH]; intros l a Hlen Hne Hc.
  - destruct l; [congruence|simpl in Hlen; lia].
  - destruct (repeated_or_NoDup l) as [Hnd|(v & l1 & l2 & l3 & ->)].
    + exists l. repeat split; auto.
      rewrite <- (length_seq n 0). apply NoDup_incl_length; auto.
      intros v Hv. apply in_seq. split; [lia|]. simpl.
      eapply chain_in_range; eauto.
    + destruct (IH (l1 ++ v :: l3) a) as (l' & Hne' & Hc' & Hl' & Hlen').
      * rewrite !length_app in *. simpl in *. rewrite length_app in Hlen.
        simpl in Hlen. lia.
      * destruct l1; discriminate.
      * eapply chain_cut; eauto.
      * exists l'. repeat split; auto.
        rewrite Hl', !last_app_cons. reflexivity.
Qed.

Lemma reaches_chain (g : nat -> list nat) (b : nat) :
  forall l a, l <> [] -> chain g a l -> last l a = b ->
    reaches (List.length l) g b a = true.
Proof.
  induction l as [|v l IH]; intros a Hne Hc Hl; [congruence|].
  destruct Hc as [Hv Hc]. cbn [List.length reaches].
  apply existsb_exists. exists v. split; [assumption|].
  destruct l as [|w l].
  - simpl in Hl. subst. now rewrite Nat.eqb_refl.
  - rewrite (IH v); [apply orb_true_r|discriminate|assumption|].
    rewrite <- Hl. symmetry. apply last_cons.
Qed.

Lemma reaches_mono (g : nat -> list nat) (b : nat) :
  forall k k' a, k <= k' -> reaches k g b a = true -> reaches k' g b a = true.
Proof.
  induction k as [|k IH]; intros k' a Hle Hr; [discriminate|].
  destruct k' as [|k']; [lia|]. simpl in *.
  apply existsb_exists in Hr as (j & Hj & Hr). apply existsb_exists.
  exists j. split; auto.
  apply orb_true_iff in Hr as [Hr|Hr]; [now rewrite Hr|].
  rewrite (IH k' j); [apply orb_true_r|lia|assumption].
Qed.

Lemma reaches_walk (g : nat -> list nat) (b : nat) :
  forall k a, reaches k g b a = true -> walk g a b.
Proof.
  induction k as [|k IH]; intros a Hr; [discriminate|]. simpl in Hr.
  apply existsb_exists in Hr as (j & Hj & Hr).
  apply orb_true_iff in Hr as [Hr|Hr].
  - apply Nat.eqb_eq in Hr. subst. now constructor.
  - eapply walk_step; eauto.
Qed.

Lemma successors_linked (loaded : list Package) (i j : nat) :
  In j (successors (linkPackages loaded) i) ->
  j < List.length (linkPackages loaded).
Proof.
  unfold successors.
  destruct (nth_error (linkPackages loaded) i) as [p|] eqn:E; [|contradiction].
  apply linkPackages_nth in E as (p0 & Hp0 & ->). simpl.
  rewrite resolveLocalDeps_find. intros (d & _ & Hfind).
  apply find_from_first in Hfind as (n & q & -> & Hn & _).
  rewrite linkPackages_length. simpl. apply nth_error_Some. congruence.
Qed.

(** The modelled detector decides [has_cycle] on linked packages. *)
Lemma isCyclicProject_has_cycle (loaded : list Package) :
  isCyclicProject (linkPackages loaded) = true
  <-> has_cycle (linkPackages loaded).
Proof.
  unfold isCyclicProject, has_cycle. rewrite existsb_exists. split.
  - intros (i & _ & Hr). exists i. eapply reaches_walk; eauto.
  - intros (i & Hw).
    assert (Hi : i < List.length (linkPackages loaded)).
    { inversion Hw as [? j Hj|? j ? Hj _]; subst;
        unfold successors in Hj;
        destruct (nth_error (linkPackages loaded) i) eqn:E;
        try contradiction; apply nth_error_Some; congruence. }
    exists i. split; [apply in_seq; lia|].
    apply walk_chain in Hw as (l & Hne & Hc & Hl).
    destruct (chain_short (successors (linkPackages loaded))
                (List.length (linkPackages loaded))
                (successors_linked loaded) (List.length l) l i)
      as (l' & Hne' & Hc' & Hl' & Hlen'); auto.
    apply (reaches_mono _ _ (List.length l')); auto.
    apply reaches_chain; auto. congruence.
Qed.



End Graph.


End GraphFacts.

(* ===================================================================== *)
(** ** The orchestrator: the tasks *)
(* ===================================================================== *)

Module MsrFacts.
Import JS Lodash Msr JSFacts GraphFacts.

(** *** Vocabulary *)

(** The values written to [packages[i].result], in order. *)
Fixpoint writes (i : nat) (trace : list event) : list Result :=
  match trace with
  | [] => []
  | ESetResult j r :: t => if Nat.eqb j i then r :: writes i t else writes i t
  | _ :: t => writes i t
  end.

Definition is_summary (ev : event) : bool :=
  match ev with
  | ELog Complete (ReleasedOf _ _) => true
  | _ => false
  end.

(** The "Released k of n packages" line was logged. *)
Definition summary_logged (trace : list event) : Prop :=
  existsb is_summary trace = true.

Definition is_gate (ev : event) : bool :=
  match ev with
  | EGetLucky _ _ | EWaitFor _ _ => true
  | _ => false
  end.

(** An event of the pipeline phase: the synchronizer, the inline plugins,
    the release engine, the results. *)
Definition is_pipeline (ev : event) : bool :=
  match ev with
  | EGetSynchronizer | ECreateInlinePluginCreator | EGetLucky _ _
  | EWaitFor _ _ | ECreateInlinePlugin _ | ESemanticRelease _ _ _
  | ESetResult _ _ => true
  | _ => false
  end.

(** A package without its result. *)
Definition forget (p : Package) : Package :=
  mkPackage (path p) (dir p) (name p) (manifest p) (deps p) (options p)
    (plugins p) (loggerRef p) (localDeps p) None.

(** Where an event appended during the run comes from. *)
Definition caused_by (schedule : list signal) (ev : event) : Prop :=
  match ev with
  | ECreateInlinePlugin j => In (Wake j) schedule
  | ESemanticRelease j _ _ => In (Wake j) schedule
  | ESetResult j r => In (Settle j (Resolve r)) schedule
  | ELog Complete (ReleasedOf _ _) => True
  | _ => False
  end.

Definition unsettled (t : task) : Prop := t = WaitReady \/ t = Releasing.

(** An event of the phase that loads and links the packages. *)
Definition is_loading (ev : event) : bool :=
  match ev with
  | ELog Complete (Started _) | ELog Success (Loaded _)
  | ELog Failure CyclicDependency | EGetPackage _ | EIsCyclicProject => true
  | _ => false
  end.

(** An event of the synchronous start of the tasks. *)
Definition is_start (ev : event) : bool :=
  match ev with
  | ELog Complete (Queued _) | EGetSynchronizer | ECreateInlinePluginCreator
  | EGetLucky _ _ | EWaitFor _ _ | ECreateInlinePlugin _
  | ESemanticRelease _ _ _ => true
  | _ => false
  end.

(** *** Lists updated at an index *)

Lemma update_length {A : Type} (i : nat) (x : A) (l : list A) :
  List.length (update i x l) = List.length l.
Proof.
  revert i. induction l as [|y l IH]; intros [|i]; simpl; auto.
Qed.

Lemma nth_error_update_same {A : Type} (i : nat) (x y : A) (l : list A) :
  nth_error l i = Some y -> nth_error (update i x l) i = Some x.
Proof.
  revert i. induction l as [|z l IH]; intros [|i]; simpl; try discriminate; auto.
Qed.

Lemma nth_error_update_other {A : Type} (i j : nat) (x : A) (l : list A) :
  j <> i -> nth_error (update i x l) j = nth_error l j.
Proof.
  revert i j. induction l as [|z l IH]; intros [|i] [|j] Hne; simpl; auto.
  congruence.
Qed.

Lemma map_update_same {A B : Type} (f : A -> B) (i : nat) (x y : A) (l : list A) :
  nth_error l i = Some y -> f x = f y -> map f (update i x l) = map f l.
Proof.
  revert i. induction l as [|z l IH]; intros [|i]; simpl; try discriminate.
  - intros [= ->] ->. reflexivity.
  - intros Hn Hf. f_equal. eauto.
Qed.

Lemma writes_app (i : nat) (a b : list event) :
  writes i (a ++ b) = writes i a ++ writes i b.
Proof.
  induction a as [|ev a IH]; simpl; auto.
  destruct ev; auto. destruct (Nat.eqb i0 i); simpl; congruence.
Qed.

Lemma summary_logged_app (a b : list event) :
  summary_logged (a ++ b) <-> summary_logged a \/ summary_logged b.
Proof.
  unfold summary_logged. rewrite existsb_app, orb_true_iff. tauto.
Qed.

Section Run.

Context {H : Host}.
Variable createInlinePlugin : nat -> value.
Variable flags : value.

#[local] Abbreviation step := (Msr.step createInlinePlugin flags).
#[local] Abbreviation run := (Msr.run createInlinePlugin flags).

Lemma conclude_packages (st : state) :
  st_packages (conclude st) = st_packages st.
Proof.
  unfold conclude. destruct (st_main st); auto.
  destruct (forallb is_done (st_tasks st)); auto.
Qed.

Lemma conclude_tasks (st : state) : st_tasks (conclude st) = st_tasks st.
Proof.
  unfold conclude. destruct (st_main st); auto.
  destruct (forallb is_done (st_tasks st)); auto.
Qed.

Lemma conclude_trace (st : state) :
  exists evs, st_trace (conclude st) = st_trace st ++ evs
              /\ Forall (fun ev => is_summary ev = true) evs.
Proof.
  unfold conclude. destruct (st_main st).
  - destruct (forallb is_done (st_tasks st)).
    + eexists. split; [reflexivity|]. repeat constructor.
    + exists []. now rewrite app_nil_r.
  - exists []. now rewrite app_nil_r.
  - exists []. now rewrite app_nil_r.
Qed.

(** A signal appends events, and only events it causes. *)
Lemma step_trace (st : state) (s : signal) :
  exists evs, st_trace (step st s) = st_trace st ++ evs
              /\ Forall (caused_by [s]) evs.
Proof.
  destruct s as [i|i [r|reason]]; simpl.
  - destruct (nth_error (st_tasks st) i) as [[| | |]|];
      try (exists []; now rewrite app_nil_r).
    destruct (nth_error (st_packages st) i);
      try (exists []; now rewrite app_nil_r).
    eexists. split; [reflexivity|]. repeat constructor; simpl; auto.
  - destruct (nth_error (st_tasks st) i) as [[| | |]|];
      try (exists []; now rewrite app_nil_r).
    destruct (nth_error (st_packages st) i);
      try (exists []; now rewrite app_nil_r).
    match goal with |- context [conclude ?s] =>
      destruct (conclude_trace s) as (evs & -> & Hevs) end.
    simpl. eexists. rewrite <- app_assoc. split; [reflexivity|].
    constructor; [simpl; auto|].
    eapply Forall_impl; [|exact Hevs]. intros [] Hs; try discriminate.
    destruct l; try discriminate. destruct m; try discriminate. exact I.
  - destruct (nth_error (st_tasks st) i) as [[| | |]|];
      exists []; now rewrite app_nil_r.
Qed.

Lemma caused_by_incl (s1 s2 : list signal) (ev : event) :
  incl s1 s2 -> caused_by s1 ev -> caused_by s2 ev.
Proof.
  intros Hincl. destruct ev; simpl; auto.
Qed.

Lemma run_trace (schedule : list signal) :
  forall st, exists evs,
    st_trace (run st schedule) = st_trace st ++ evs
    /\ Forall (caused_by schedule) evs.
Proof.
  induction schedule as [|s schedule IH]; intros st; simpl.
  - exists []. now rewrite app_nil_r.
  - destruct (IH (step st s)) as (evs2 & -> & H2).
    destruct (step_trace st s) as (evs1 & -> & H1).
    exists (evs1 ++ evs2). rewrite app_assoc. split; [reflexivity|].
    apply Forall_app. split.
    + eapply Forall_impl; [|exact H1]. intros ev. apply caused_by_incl.
      intros x [<-|[]]. now left.
    + eapply Forall_impl; [|exact H2]. intros ev. apply caused_by_incl.
      intros x Hx. now right.
Qed.

(** *** What every reachable state satisfies *)

(** The packages are the loaded ones, up to their results, and each has a
    task. *)
Definition shape (loaded : list Package) (st : state) : Prop :=
  map forget (st_packages st) = map forget loaded
  /\ List.length (st_tasks st) = List.length loaded.

(** A fulfilled task has written its result, once; any other task has
    written nothing and its package has no result. *)
Definition results_ok (st : state) : Prop :=
  (forall i, nth_error (st_tasks st) i = Some Done ->
     exists pkg r, nth_error (st_packages st) i = Some pkg
                   /\ result pkg = Some r
                   /\ writes i (st_trace st) = [r])
  /\ (forall i t, nth_error (st_tasks st) i = Some t -> t <> Done ->
        exists pkg, nth_error (st_packages st) i = Some pkg
                    /\ result pkg = None
                    /\ writes i (st_trace st) = [])
  /\ (forall i, nth_error (st_tasks st) i = None ->
        writes i (st_trace st) = []).

(** The promise of the run: pending while no task has failed and one is
    unsettled; returned when all are fulfilled, right after the summary;
    thrown with the error of a failed task. *)
Definition main_ok (st : state) : Prop :=
  match st_main st with
  | Pending =>
      ~ summary_logged (st_trace st)
      /\ (forall i e, nth_error (st_tasks st) i <> Some (Failed e))
      /\ exists i t, nth_error (st_tasks st) i = Some t /\ unsettled t
  | Returned ps =>
      ps = st_packages st
      /\ forallb is_done (st_tasks st) = true
      /\ exists t,
           st_trace st
           = t ++ [ELog Complete (ReleasedOf (released ps) (List.length ps))]
           /\ ~ summary_logged t
  | Thrown e =>
      ~ summary_logged (st_trace st)
      /\ exists i reason, e = EngineError reason
                          /\ nth_error (st_tasks st) i = Some (Failed e)
  end.

(** Every call of semanticRelease() got the options releasePackage()
    builds for the package, and the package's directory. *)
Definition calls_ok (loaded : list Package) (st : state) : Prop :=
  forall i opts d,
    In (ESemanticRelease i opts d) (st_trace st) ->
    exists pkg, nth_error loaded i = Some pkg
                /\ opts = releaseOptions flags pkg (createInlinePlugin i)
                /\ d = dir pkg.

Definition invariant (loaded : list Package) (st : state) : Prop :=
  shape loaded st /\ results_ok st /\ main_ok st /\ calls_ok loaded st.

Lemma all_done_nth (ts : list task) (i : nat) (t : task) :
  forallb is_done ts = true -> nth_error ts i = Some t -> t = Done.
Proof.
  intros Hall Hn. rewrite forallb_forall in Hall.
  apply nth_error_In in Hn. apply Hall in Hn. destruct t; try discriminate.
  reflexivity.
Qed.

Lemma not_all_done (ts : list task) :
  forallb is_done ts = false ->
  exists i t, nth_error ts i = Some t /\ t <> Done.
Proof.
  induction ts as [|t ts IH]; simpl; [discriminate|].
  destruct t; simpl;
    try (intros _; exists 0; eexists; split; [reflexivity|discriminate]).
  intros Hf. destruct (IH Hf) as (i & t & Hi & Ht). exists (S i), t. auto.
Qed.

Lemma forget_nth (loaded packages : list Package) (i : nat) (pkg : Package) :
  map forget packages = map forget loaded ->
  nth_error packages i = Some pkg ->
  exists p0, nth_error loaded i = Some p0 /\ forget p0 = forget pkg.
Proof.
  intros Hmap Hn.
  assert (Hm : nth_error (map forget loaded) i = Some (forget pkg)).
  { rewrite <- Hmap, nth_error_map, Hn. reflexivity. }
  rewrite nth_error_map in Hm.
  destruct (nth_error loaded i) as [p0|]; [|discriminate].
  exists p0. split; [reflexivity|]. simpl in Hm. congruence.
Qed.

Lemma forget_releaseOptions (p q : Package) (x : value) :
  forget p = forget q ->
  releaseOptions flags p x = releaseOptions flags q x /\ dir p = dir q.
Proof.
  unfold forget, releaseOptions. intros Hf.
  injection Hf as Hpath Hdir Hname Hman Hdeps Hopt Hplug Hlog Hloc.
  rewrite Hopt, Hname, Hdir. auto.
Qed.

Lemma results_ok_summary (pk : list Package) (ts : list task) (m m' : completion)
  (tr evs : list event) :
  Forall (fun ev => is_summary ev = true) evs ->
  results_ok (mkState pk ts m tr) -> results_ok (mkState pk ts m' (tr ++ evs)).
Proof.
  intros Hevs (Hd & Hn & Ho).
  assert (Hw : forall i, writes i (tr ++ evs) = writes i tr).
  { intros i. rewrite writes_app.
    assert (writes i evs = []) as ->; [|apply app_nil_r].
    induction Hevs as [|ev evs Hev _ IH]; auto.
    destruct ev; try discriminate; simpl; auto. }
  unfold results_ok in *. simpl in *. repeat split; intros; rewrite Hw; eauto.
Qed.

Lemma invariant_step (loaded : list Package) (st : state) (s : signal) :
  invariant loaded st -> invariant loaded (step st s).
Proof.
  destruct st as [pk ts mn tr].
  intros ((Hmap & Hlen) & (Hdone & Hnot & Hout) & Hmain & Hcalls).
  unfold main_ok in Hmain. unfold calls_ok in Hcalls. simpl in *.
  destruct s as [i|i [r|reason]]; simpl.
  - (* Wake *)
    destruct (nth_error ts i) as [[| | |]|] eqn:Et;
      try (repeat split; assumption).
    destruct (nth_error pk i) as [pkg|] eqn:Ep;
      try (repeat split; assumption).
    assert (Hw : forall j, writes j (tr ++ releasePackage_call createInlinePlugin flags i pkg)
                           = writes j tr).
    { intros j. rewrite writes_app. simpl. apply app_nil_r. }
    split; [|split; [|split]].
    + split; simpl; auto. now rewrite update_length.
    + unfold results_ok. simpl. repeat split.
      * intros j Hj. rewrite Hw.
        destruct (Nat.eq_dec j i) as [->|Hne].
        -- rewrite (nth_error_update_same _ _ _ _ Et) in Hj. discriminate.
        -- rewrite nth_error_update_other in Hj by assumption. auto.
      * intros j t Hj Ht. rewrite Hw.
        destruct (Nat.eq_dec j i) as [->|Hne].
        -- apply (Hnot i WaitReady); [assumption|discriminate].
        -- rewrite nth_error_update_other in Hj by assumption. eauto.
      * intros j Hj. rewrite Hw.
        destruct (Nat.eq_dec j i) as [->|Hne].
        -- rewrite (nth_error_update_same _ _ _ _ Et) in Hj. discriminate.
        -- rewrite nth_error_update_other in Hj by assumption. auto.
    + unfold main_ok in *. simpl in *.
      assert (Hs : forall a, ~ summary_logged a ->
                 ~ summary_logged (a ++ releasePackage_call createInlinePlugin flags i pkg)).
      { intros a Ha. rewrite summary_logged_app. intros [Hx|Hx]; auto.
        discriminate. }
      destruct mn as [|ps|e].
      * destruct Hmain as (Hsum & Hnf & _). repeat split; auto.
        -- intros j e Hj. destruct (Nat.eq_dec j i) as [->|Hne].
           ++ rewrite (nth_error_update_same _ _ _ _ Et) in Hj. discriminate.
           ++ rewrite nth_error_update_other in Hj by assumption.
              now apply Hnf in Hj.
        -- exists i, Releasing. split; [|now right].
           apply (nth_error_update_same _ _ _ _ Et).
      * destruct Hmain as (_ & Hall & _).
        pose proof (all_done_nth _ _ _ Hall Et). discriminate.
      * destruct Hmain as (Hsum & j & reason & -> & Hj). split; auto.
        exists j, reason. split; auto.
        rewrite nth_error_update_other; auto. intros ->. congruence.
    + intros j opts d Hin. apply in_app_or in Hin as [Hin|Hin]; auto.
      destruct Hin as [Hin|[Hin|[]]]; [discriminate|].
      injection Hin as <- <- <-.
      destruct (forget_nth _ _ _ _ Hmap Ep) as (p0 & Hp0 & Hf).
      exists p0. split; auto.
      destruct (forget_releaseOptions p0 pkg (createInlinePlugin i) Hf) as [-> ->].
      auto.
  - (* Settle, resolved *)
    destruct (nth_error ts i) as [[| | |]|] eqn:Et;
      try (repeat split; assumption).
    destruct (nth_error pk i) as [pkg|] eqn:Ep;
      try (repeat split; assumption).
    set (st1 := mkState (update i (set_result pkg r) pk) (update i Done ts) mn
                  (tr ++ [ESetResult i r])).
    assert (Hres1 : results_ok st1).
    { unfold results_ok, st1. simpl. repeat split.
      - intros j Hj. rewrite writes_app. simpl.
        destruct (Nat.eq_dec j i) as [->|Hne].
        + rewrite Nat.eqb_refl.
          exists (set_result pkg r), r. split; [|split; auto].
          * apply (nth_error_update_same _ _ _ _ Ep).
          * destruct (Hnot i Releasing Et) as (p & Hp & _ & ->); [discriminate|].
            reflexivity.
        + rewrite nth_error_update_other in Hj by assumption.
          rewrite nth_error_update_other by assumption.
          apply Nat.eqb_neq in Hne. rewrite Nat.eqb_sym, Hne, app_nil_r. auto.
      - intros j t Hj Ht. rewrite writes_app. simpl.
        destruct (Nat.eq_dec j i) as [->|Hne].
        + rewrite (nth_error_update_same _ _ _ _ Et) in Hj. congruence.
        + rewrite nth_error_update_other in Hj by assumption.
          rewrite nth_error_update_other by assumption.
          apply Nat.eqb_neq in Hne. rewrite Nat.eqb_sym, Hne, app_nil_r. eauto.
      - intros j Hj. rewrite writes_app. simpl.
        destruct (Nat.eq_dec j i) as [->|Hne].
        + rewrite (nth_error_update_same _ _ _ _ Et) in Hj. discriminate.
        + rewrite nth_error_update_other in Hj by assumption.
          apply Nat.eqb_neq in Hne. rewrite Nat.eqb_sym, Hne, app_nil_r. auto. }
    assert (Hsum1 : ~ summary_logged tr -> ~ summary_logged (tr ++ [ESetResult i r])).
    { intros Ha. rewrite summary_logged_app. intros [Hx|Hx]; auto. discriminate. }
    unfold conclude. fold st1. simpl.
    destruct mn as [|ps|e].
    + destruct Hmain as (Hsum & Hnf & _).
      assert (Hnf1 : forall j e, nth_error (update i Done ts) j <> Some (Failed e)).
      { intros j e Hj. destruct (Nat.eq_dec j i) as [->|Hne].
        - rewrite (nth_error_update_same _ _ _ _ Et) in Hj. discriminate.
        - rewrite nth_error_update_other in Hj by assumption.
          now apply Hnf in Hj. }
      destruct (forallb is_done (update i Done ts)) eqn:Eall.
      * split; [|split; [|split]].
        -- split; simpl; [|now rewrite update_length].
           rewrite (map_update_same forget i _ pkg); auto.
        -- apply (results_ok_summary _ _ Pending (Returned (update i (set_result pkg r) pk)) _
                    [ELog Complete (ReleasedOf (released (update i (set_result pkg r) pk))
                       (List.length (update i (set_result pkg r) pk)))]).
           ++ repeat constructor.
           ++ exact Hres1.
        -- unfold main_ok. simpl. repeat split; auto.
           eexists. split; [reflexivity|auto].
        -- intros j opts d Hin. simpl in Hin.
           apply in_app_or in Hin as [Hin|[Hin|[]]]; [|discriminate].
           apply in_app_or in Hin as [Hin|[Hin|[]]]; [auto|discriminate].
      * split; [|split; [|split]].
        -- split; simpl; [|now rewrite update_length].
           rewrite (map_update_same forget i _ pkg); auto.
        -- exact Hres1.
        -- unfold main_ok. simpl. repeat split; auto.
           destruct (not_all_done _ Eall) as (j & t & Hj & Ht).
           exists j, t. split; auto.
           destruct t; try congruence; [now left|now right|].
           now apply Hnf1 in Hj.
        -- intros j opts d Hin. simpl in Hin.
           apply in_app_or in Hin as [Hin|[Hin|[]]]; [auto|discriminate].
    + destruct Hmain as (_ & Hall & _).
      pose proof (all_done_nth _ _ _ Hall Et). discriminate.
    + destruct Hmain as (Hsum & j & reason & -> & Hj).
      split; [|split; [|split]].
      * split; simpl; [|now rewrite update_length].
        rewrite (map_update_same forget i _ pkg); auto.
      * exact Hres1.
      * unfold main_ok. simpl. split; auto.
        exists j, reason. split; auto.
        rewrite nth_error_update_other; auto. intros ->. congruence.
      * intros k opts d Hin. simpl in Hin.
        apply in_app_or in Hin as [Hin|[Hin|[]]]; [auto|discriminate].
  - (* Settle, rejected *)
    destruct (nth_error ts i) as [[| | |]|] eqn:Et;
      try (repeat split; assumption).
    split; [|split; [|split]].
    + split; simpl; auto. now rewrite update_length.
    + unfold results_ok. simpl. repeat split.
      * intros j Hj. destruct (Nat.eq_dec j i) as [->|Hne].
        -- rewrite (nth_error_update_same _ _ _ _ Et) in Hj. discriminate.
        -- rewrite nth_error_update_other in Hj by assumption. auto.
      * intros j t Hj Ht. destruct (Nat.eq_dec j i) as [->|Hne].
        -- apply (Hnot i Releasing); [assumption|discriminate].
        -- rewrite nth_error_update_other in Hj by assumption. eauto.
      * intros j Hj. destruct (Nat.eq_dec j i) as [->|Hne].
        -- rewrite (nth_error_update_same _ _ _ _ Et) in Hj. discriminate.
        -- rewrite nth_error_update_other in Hj by assumption. auto.
    + unfold main_ok in *. simpl in *. destruct mn as [|ps|e].
      * destruct Hmain as (Hsum & _). split; auto.
        exists i, reason. split; auto.
        apply (nth_error_update_same _ _ _ _ Et).
      * destruct Hmain as (_ & Hall & _).
        pose proof (all_done_nth _ _ _ Hall Et). discriminate.
      * destruct Hmain as (Hsum & j & reason' & -> & Hj). split; auto.
        exists j, reason'. split; auto.
        rewrite nth_error_update_other; auto. intros ->. congruence.
    + exact Hcalls.
Qed.

(** *** The start of the tasks *)

Definition sequentialInit : bool := truthy (prop flags "sequentialInit").

Lemma startTasks_tasks (packages : list Package) :
  forall k,
    fst (startTasks createInlinePlugin flags k packages)
    = map (fun _ => if sequentialInit then WaitReady else Releasing) packages.
Proof.
  induction packages as [|pkg rest IH]; intros k; simpl; auto.
  specialize (IH (S k)).
  destruct (startTasks createInlinePlugin flags (S k) rest) as [ts es].
  unfold startTask, sequentialInit in *. simpl in *.
  destruct (truthy (prop flags "sequentialInit")); simpl; congruence.
Qed.

(** With sequentialInit the start consists of the claims and waits, a
    pair for each package, in order. *)
Lemma startTasks_gated (packages : list Package) :
  sequentialInit = true ->
  forall k,
    snd (startTasks createInlinePlugin flags k packages)
    = flat_map (fun j => [EGetLucky "_readyForRelease" j;
                          EWaitFor "_readyForRelease" j])
        (seq k (List.length packages)).
Proof.
  intros Hsi. induction packages as [|pkg rest IH]; intros k; simpl; auto.
  specialize (IH (S k)).
  destruct (startTasks createInlinePlugin flags (S k) rest) as [ts es].
  unfold startTask. unfold sequentialInit in Hsi. rewrite Hsi. simpl in *.
  congruence.
Qed.

(** Without it the start consists of the calls of releasePackage(), one
    for each package, in order. *)
Lemma startTasks_ungated (packages : list Package) :
  sequentialInit = false ->
  forall k,
    snd (startTasks createInlinePlugin flags k packages)
    = flat_map (fun jp => releasePackage_call createInlinePlugin flags
                            (fst jp) (snd jp))
        (combine (seq k (List.length packages)) packages).
Proof.
  intros Hsi. induction packages as [|pkg rest IH]; intros k; simpl; auto.
  specialize (IH (S k)).
  destruct (startTasks createInlinePlugin flags (S k) rest) as [ts es].
  unfold startTask. unfold sequentialInit in Hsi. rewrite Hsi. simpl in *.
  congruence.
Qed.

Lemma combine_seq_nth (packages : list Package) :
  forall k j pkg,
    In (j, pkg) (combine (seq k (List.length packages)) packages)
    <-> k <= j /\ nth_error packages (j - k) = Some pkg.
Proof.
  induction packages as [|p rest IH]; intros k j pkg; simpl.
  - split; [contradiction|]. intros [_ Hn]. destruct (j - k); discriminate.
  - rewrite IH. split.
    + intros [Heq|[Hle Hn]].
      * injection Heq as <- <-. rewrite Nat.sub_diag. auto.
      * split; [lia|]. replace (j - k) with (S (j - S k)) by lia. exact Hn.
    + intros [Hle Hn]. destruct (j - k) as [|m] eqn:E.
      * left. injection Hn as <-. f_equal. lia.
      * right. split; [lia|]. replace (j - S k) with m by lia. exact Hn.
Qed.

(** The events of the start, one by one. *)
Lemma startTasks_events (packages : list Package) (ev : event) :
  In ev (snd (startTasks createInlinePlugin flags 0 packages)) ->
  is_start ev = true /\ is_summary ev = false /\ is_loading ev = false
  /\ (forall j r, ev <> ESetResult j r)
  /\ (is_gate ev = true <-> sequentialInit = true)
  /\ (forall i opts d, ev = ESemanticRelease i opts d ->
        exists pkg, nth_error packages i = Some pkg
                    /\ opts = releaseOptions flags pkg (createInlinePlugin i)
                    /\ d = dir pkg).
Proof.
  destruct sequentialInit eqn:Hsi.
  - rewrite (startTasks_gated packages Hsi). rewrite in_flat_map.
    intros (j & _ & [<-|[<-|[]]]); repeat split; try discriminate; auto.
  - rewrite (startTasks_ungated packages Hsi). rewrite in_flat_map.
    intros ([j pkg] & Hin & [<-|[<-|[]]]); repeat split; try discriminate; auto.
    intros i opts d [= <- <- <-]. apply combine_seq_nth in Hin as [_ Hn].
    rewrite Nat.sub_0_r in Hn. simpl. eauto.
Qed.

Lemma writes_none (i : nat) (tr : list event) :
  (forall ev, In ev tr -> forall j r, ev <> ESetResult j r) ->
  writes i tr = [].
Proof.
  induction tr as [|ev tr IH]; simpl; intros Hn; auto.
  destruct ev; try (apply IH; intros; apply Hn; now right).
  exfalso. eapply Hn; [now left|reflexivity].
Qed.

Lemma not_summary_logged (tr : list event) :
  (forall ev, In ev tr -> is_summary ev = false) -> ~ summary_logged tr.
Proof.
  unfold summary_logged. intros Hn Hex. apply existsb_exists in Hex as (ev & Hin & Hs).
  rewrite (Hn ev Hin) in Hs. discriminate.
Qed.

Lemma is_loading_event (ev : event) :
  is_loading ev = true ->
  is_summary ev = false /\ is_pipeline ev = false /\ is_start ev = false
  /\ is_gate ev = false
  /\ (forall j r, ev <> ESetResult j r)
  /\ (forall i opts d, ev <> ESemanticRelease i opts d).
Proof.
  destruct ev; try discriminate; try (destruct l, m; try discriminate);
    repeat split; intros; discriminate.
Qed.

(** The state the tasks start in. *)
Lemma invariant_launch (loaded : list Package) (trace : list event) :
  (forall p, In p loaded -> result p = None) ->
  (forall ev, In ev trace -> is_loading ev = true) ->
  invariant loaded (launch createInlinePlugin flags loaded trace).
Proof.
  intros Hres Htrace. unfold launch.
  pose proof (startTasks_tasks loaded 0) as Hts.
  pose proof (startTasks_events loaded) as Hev.
  destruct (startTasks createInlinePlugin flags 0 loaded) as [ts started].
  simpl in Hts, Hev. subst ts.
  set (tasks := map (fun _ => if sequentialInit then WaitReady else Releasing) loaded).
  set (tr := trace ++ [ELog Complete (Queued (List.length loaded)); EGetSynchronizer;
                       ECreateInlinePluginCreator] ++ started).
  assert (Htr : forall ev, In ev tr ->
            is_summary ev = false /\ (forall j r, ev <> ESetResult j r)
            /\ (forall i opts d, ev = ESemanticRelease i opts d ->
                  exists pkg, nth_error loaded i = Some pkg
                    /\ opts = releaseOptions flags pkg (createInlinePlugin i)
                    /\ d = dir pkg)).
  { intros ev Hin. unfold tr in Hin. apply in_app_or in Hin as [Hin|Hin].
    - apply Htrace, is_loading_event in Hin as (? & _ & _ & _ & ? & Hc).
      repeat split; auto. intros i opts d ->. now destruct (Hc i opts d).
    - destruct Hin as [<-|[<-|[<-|Hin]]];
        try (repeat split; [discriminate..|intros; discriminate]).
      apply Hev in Hin as (_ & ? & _ & ? & _ & ?). auto. }
  assert (Hnd : forall i t, nth_error tasks i = Some t -> unsettled t).
  { intros i t Hi. unfold tasks in Hi. rewrite nth_error_map in Hi.
    destruct (nth_error loaded i); [|discriminate]. injection Hi as <-.
    destruct sequentialInit; [now left|now right]. }
  assert (Hshape : shape loaded (mkState loaded tasks Pending tr)).
  { split; simpl; auto. unfold tasks. apply length_map. }
  assert (Hresults : results_ok (mkState loaded tasks Pending tr)).
  { unfold results_ok. simpl. repeat split.
    - intros i Hi. apply Hnd in Hi as [|]; discriminate.
    - intros i t Hi _. unfold tasks in Hi. rewrite nth_error_map in Hi.
      destruct (nth_error loaded i) as [p|] eqn:Ep; [|discriminate].
      exists p. repeat split; auto.
      + apply Hres. eapply nth_error_In; eauto.
      + apply writes_none. intros ev Hin. now apply Htr.
    - intros i _. apply writes_none. intros ev Hin. now apply Htr. }
  assert (Hsum : ~ summary_logged tr).
  { apply not_summary_logged. intros ev Hin. now apply Htr. }
  unfold conclude. simpl.
  destruct (forallb is_done tasks) eqn:Eall.
  - split; [exact Hshape|]. split; [|split].
    + apply (results_ok_summary _ _ Pending (Returned loaded) _
               [ELog Complete (ReleasedOf (released loaded) (List.length loaded))]).
      * repeat constructor.
      * exact Hresults.
    + unfold main_ok. simpl. repeat split; auto.
      eexists. split; [reflexivity|auto].
    + intros i opts d Hin. simpl in Hin.
      apply in_app_or in Hin as [Hin|[Hin|[]]]; [|discriminate].
      now apply (Htr _ Hin).
  - split; [exact Hshape|]. split; [exact Hresults|]. split.
    + unfold main_ok. simpl. repeat split; auto.
      * intros i e Hi. apply Hnd in Hi as [|]; discriminate.
      * destruct (not_all_done _ Eall) as (i & t & Hi & _). eauto.
    + intros i opts d Hin. now apply (Htr _ Hin).
Qed.

Lemma invariant_run (loaded : list Package) (schedule : list signal) :
  forall st, invariant loaded st -> invariant loaded (run st schedule).
Proof.
  induction schedule as [|s schedule IH]; intros st Hinv; simpl; auto.
  apply IH. now apply invariant_step.
Qed.

End Run.

(** *** Loading *)

Section Load.

Context {H : Host}.

(** The parameter checks, on the settings with their defaults. *)
Definition checked (args : InputArguments) (settings : Settings) : exc unit :=
  checkParams args
    (default (s_cwd settings) process_cwd)
    (default (s_env settings) process_env)
    (default (s_stdout settings) process_stdout)
    (default (s_stderr settings) process_stderr).

(** The errors of the parameter checks. *)
Definition configuration_error (e : error) : Prop :=
  e = ProvideError \/ exists param, e = CheckError param.

(** The options of a loaded package are what the release engine's
    configuration loader makes of the merged options. *)
Definition options_resolved (ctx : MultiContext) (pkg : Package) : Prop :=
  exists context,
    options pkg
    = fst (getConfigSemantic context
             (finalOptions (globalOptions ctx) (getConfig (dir pkg))
                (inputOptions ctx))).

Lemma bind_Ok {A B : Type} (m : exc A) (f : A -> exc B) (b : B) :
  bind m f = Ok b -> exists a, m = Ok a /\ f a = Ok b.
Proof. destruct m; simpl; [eauto|discriminate]. Qed.

Lemma bind_Throw {A B : Type} (m : exc A) (f : A -> exc B) (e : error) :
  bind m f = Throw e -> m = Throw e \/ exists a, m = Ok a /\ f a = Throw e.
Proof. destruct m; simpl; [eauto|intros [= ->]; auto]. Qed.

Lemma get_Throw (v : value) (k : string) (e : error) :
  get v k = Throw e -> e = TypeError k.
Proof. destruct v; simpl; congruence. Qed.

Lemma getPackage_Ok (s : value) (ctx : MultiContext) (pkg : Package) :
  getPackage s ctx = Ok pkg ->
  result pkg = None /\ localDeps pkg = None /\ options_resolved ctx pkg.
Proof.
  unfold getPackage. intros Hg.
  repeat (apply bind_Ok in Hg as (? & _ & Hg)).
  match type of Hg with context [getConfigSemantic ?c ?f] =>
    destruct (getConfigSemantic c f) as [o p] eqn:E end.
  injection Hg as <-. simpl. repeat split.
  eexists. simpl. rewrite E. reflexivity.
Qed.

Lemma getPackage_Throw (s : value) (ctx : MultiContext) (e : error) :
  getPackage s ctx = Throw e -> exists what, e = TypeError what.
Proof.
  unfold getPackage. intros Hg.
  repeat (apply bind_Throw in Hg as [Hg|(? & _ & Hg)];
          [apply get_Throw in Hg; eauto|]).
  match type of Hg with context [getConfigSemantic ?c ?f] =>
    destruct (getConfigSemantic c f) end.
  discriminate.
Qed.

Lemma loadPackages_Ok (sources : list value) (ctx : MultiContext) :
  forall loaded,
    loadPackages sources ctx = Ok loaded ->
    forall p, In p loaded ->
      result p = None /\ localDeps p = None /\ options_resolved ctx p.
Proof.
  induction sources as [|s rest IH]; simpl; intros loaded Hl.
  - injection Hl as <-. intros p [].
  - apply bind_Ok in Hl as (pkg & Hpkg & Hl).
    apply bind_Ok in Hl as (pkgs & Hpkgs & Hl). injection Hl as <-.
    intros p [<-|Hin]; [now apply (getPackage_Ok s)|eauto].
Qed.

Lemma loadPackages_Throw (sources : list value) (ctx : MultiContext) (e : error) :
  loadPackages sources ctx = Throw e -> exists what, e = TypeError what.
Proof.
  induction sources as [|s rest IH]; simpl; [discriminate|]. intros Hl.
  apply bind_Throw in Hl as [Hl|(pkg & _ & Hl)];
    [now apply getPackage_Throw in Hl|].
  apply bind_Throw in Hl as [Hl|(pkgs & _ & Hl)]; [auto|discriminate].
Qed.

Lemma linkPackages_In (loaded : list Package) (p : Package) :
  In p (linkPackages loaded) ->
  exists p0, In p0 loaded /\ p = set_localDeps p0 (resolveLocalDeps loaded p0).
Proof.
  unfold linkPackages. rewrite in_map_iff. intros (p0 & <- & Hin). eauto.
Qed.


(** The outcome of [load], case by case. *)
Lemma load_cases (args : InputArguments) (io : value)
  (settings : Settings) :
  match load args io settings with
  | (trace, Throw e) =>
      (checked args settings = Throw e /\ trace = [])
      \/ (checked args settings = Ok tt
          /\ (exists what, e = TypeError what)
          /\ trace <> []
          /\ forall ev, In ev trace ->
               is_loading ev = true /\ ev <> EIsCyclicProject)
  | (trace, Ok (packages, ctx)) =>
      checked args settings = Ok tt
      /\ trace <> []
      /\ (exists loaded, packages = linkPackages loaded)
      /\ (forall p, In p packages -> result p = None /\ options_resolved ctx p)
      /\ (forall ev, In ev trace ->
            is_loading ev = true /\ ev <> EIsCyclicProject)
      /\ inputOptions ctx = default io (VObj Plain [])
      /\ globalOptions ctx = getConfig (cwd ctx)
  end.
Proof.
  unfold load. fold (checked args settings).
  destruct (checked args settings) as [[]|e] eqn:Ec; [|left; auto].
  set (sources := if truthy (paths args) then paths args
                  else packageManifests args).
  assert (Hev : forall ev,
             In ev (ELog Complete (Started (List.length (elements sources)))
                    :: map EGetPackage (elements sources)) ->
             is_loading ev = true /\ ev <> EIsCyclicProject).
  { intros ev [<-|Hin]; [split; [reflexivity|discriminate]|].
    apply in_map_iff in Hin as (x & <- & _). split; [reflexivity|discriminate]. }
  match goal with |- context [loadPackages ?a ?b] =>
    destruct (loadPackages a b) as [loaded|e] eqn:El end.
  - split; [reflexivity|]. split; [discriminate|].
    split; [eauto|]. split; [|split; [|split; reflexivity]].
    + intros p Hp. apply linkPackages_In in Hp as (p0 & Hp0 & ->).
      destruct (loadPackages_Ok _ _ _ El p0 Hp0) as (Hr & _ & Ho).
      simpl. split; [assumption|]. destruct Ho as (context & Ho).
      exists context. exact Ho.
    + intros ev Hin. apply in_app_or in Hin as [Hin|Hin]; [auto|].
      apply in_map_iff in Hin as (x & <- & _). split; [reflexivity|discriminate].
  - right. split; [reflexivity|]. split; [|split; [discriminate|exact Hev]].
    eapply loadPackages_Throw; eauto.
Qed.

(** Every run either stops at the parameter checks, or stops after
    loading without a task started, or is the run of the tasks from their
    start. *)
Lemma multiSemanticRelease_cases (args : InputArguments) (io : value)
  (settings : Settings) (flags : value) (schedule : list signal) :
  let flags' := default flags default_flags in
  let st := multiSemanticRelease args io settings flags schedule in
  (exists e, checked args settings = Throw e
             /\ st = mkState [] [] (Thrown e) [])
  \/ (checked args settings = Ok tt
      /\ exists e packages trace,
           st = mkState packages [] (Thrown e) trace
           /\ (e = CyclicError \/ exists what, e = TypeError what)
           /\ trace <> []
           /\ (forall ev, In ev trace -> is_loading ev = true)
           /\ (forall p, In p packages -> result p = None))
  \/ (checked args settings = Ok tt
      /\ exists packages ctx trace,
           (forall ev, In ev trace -> is_loading ev = true)
           /\ (forall p, In p packages ->
                 result p = None /\ options_resolved ctx p)
           /\ inputOptions ctx = default io (VObj Plain [])
           /\ globalOptions ctx = getConfig (cwd ctx)
           /\ st = run (createInlinePluginCreator packages ctx flags') flags'
                     (launch (createInlinePluginCreator packages ctx flags')
                        flags' packages trace)
                     schedule).
Proof.
  intros flags' st. unfold st, multiSemanticRelease. fold flags'.
  pose proof (load_cases args io settings) as Hl.
  destruct (load args io settings) as [trace [[packages ctx]|e]].
  - destruct Hl as (Hc & Hne & _ & Hres & Hev & Hio & Hgo).
    right.
    destruct (get flags' "sequentialPrepare") as [sp|e] eqn:Eg.
    + destruct (truthy sp) eqn:Esp.
      * destruct (isCyclicProject packages) eqn:Ecyc.
        -- left. split; [assumption|]. exists CyclicError, packages.
           eexists. split; [reflexivity|]. split; [auto|].
           split; [destruct trace; discriminate|]. split.
           ++ intros ev Hin. apply in_app_or in Hin as [Hin|Hin].
              ** now apply Hev.
              ** destruct Hin as [<-|[<-|[]]]; reflexivity.
           ++ intros p Hp. now apply Hres.
        -- right. split; [assumption|]. exists packages, ctx.
           eexists. split; [|split; [exact Hres|split; [exact Hio|split;
             [exact Hgo|reflexivity]]]].
           intros ev Hin. apply in_app_or in Hin as [Hin|Hin].
           ++ now apply Hev.
           ++ destruct Hin as [<-|[]]; reflexivity.
      * right. split; [assumption|]. exists packages, ctx, trace.
        split; [|split; [exact Hres|split; [exact Hio|split;
          [exact Hgo|reflexivity]]]].
        intros ev Hin. now apply Hev.
    + left. split; [assumption|]. exists e, packages, trace.
      split; [reflexivity|]. split.
      * right. apply get_Throw in Eg. eauto.
      * split; [assumption|].
        split; [intros ev Hin; now apply Hev|intros p Hp; now apply Hres].
  - destruct Hl as [[Hc ->]|(Hc & Hty & Hne & Hev)].
    + left. eauto.
    + right. left. split; [assumption|]. exists e, [], trace.
      split; [reflexivity|]. split; [auto|]. split; [assumption|].
      split; [intros ev Hin; now apply Hev|intros p []].
Qed.

End Load.

(** *** The outcome of a run *)

Section Outcome.

Context {H : Host}.


Lemma shape_lengths (cip : nat -> value) (flags : value)
  (loaded : list Package) (st : state) :
  shape loaded st -> List.length (st_packages st) = List.length (st_tasks st).
Proof.
  intros [Hmap Hlen]. rewrite Hlen.
  rewrite <- (length_map forget (st_packages st)), Hmap. apply length_map.
Qed.


(** *** The result field *)

Lemma writes_In (i : nat) (r : Result) (tr : list event) :
  In r (writes i tr) -> In (ESetResult i r) tr.
Proof.
  induction tr as [|ev tr IH]; simpl; [contradiction|].
  destruct ev; auto. destruct (Nat.eqb_spec i0 i) as [->|Hne]; auto.
  intros [<-|Hin]; auto.
Qed.

(** The trace at the start of the tasks. *)
Lemma launch_trace (cip : nat -> value) (flags : value)
  (packages : list Package) (trace : list event) :
  exists c,
    st_trace (launch cip flags packages trace)
    = trace
      ++ [ELog Complete (Queued (List.length packages)); EGetSynchronizer;
          ECreateInlinePluginCreator]
      ++ snd (startTasks cip flags 0 packages) ++ c
    /\ Forall (fun ev => is_summary ev = true) c.
Proof.
  unfold launch. destruct (startTasks cip flags 0 packages) as [ts started].
  match goal with |- context [conclude ?s] =>
    destruct (conclude_trace s) as (c & -> & Hc) end.
  exists c. simpl. split; [|auto].
  repeat (rewrite <- app_assoc; simpl). reflexivity.
Qed.

Lemma launch_packages (cip : nat -> value) (flags : value)
  (packages : list Package) (trace : list event) :
  st_packages (launch cip flags packages trace) = packages.
Proof.
  unfold launch. destruct (startTasks cip flags 0 packages).
  now rewrite conclude_packages.
Qed.

Lemma launch_tasks (cip : nat -> value) (flags : value)
  (packages : list Package) (trace : list event) :
  st_tasks (launch cip flags packages trace)
  = map (fun _ => if sequentialInit flags then WaitReady else Releasing)
      packages.
Proof.
  unfold launch. rewrite <- (startTasks_tasks cip flags packages 0).
  destruct (startTasks cip flags 0 packages). now rewrite conclude_tasks.
Qed.

(** The events of a run that reached the start of its tasks. *)
Lemma launched_trace (cip : nat -> value) (flags : value)
  (packages : list Package) (trace : list event) (schedule : list signal) :
  (forall ev, In ev trace -> is_loading ev = true) ->
  exists c evs,
    st_trace (run cip flags (launch cip flags packages trace) schedule)
    = trace
      ++ [ELog Complete (Queued (List.length packages)); EGetSynchronizer;
          ECreateInlinePluginCreator]
      ++ snd (startTasks cip flags 0 packages) ++ c ++ evs
    /\ Forall (fun ev => is_summary ev = true) c
    /\ Forall (caused_by schedule) evs.
Proof.
  intros Hev.
  destruct (run_trace cip flags schedule (launch cip flags packages trace))
    as (evs & -> & Hevs).
  destruct (launch_trace cip flags packages trace) as (c & -> & Hc).
  exists c, evs. split; [|auto].
  repeat (rewrite <- app_assoc; simpl). reflexivity.
Qed.

(** C7 (as amended): the result of every package is undefined when the
    tasks start. In every run it is written at most once, by the package's
    own task, when its semanticRelease() call resolves, with the value the
    call resolved with (false or the release outcome): a fulfilled task has
    written it exactly once; a task that is waiting, running or failed has
    not written it, and the result is still undefined. Nothing else writes
    it. *)
Theorem result_written_once_when_resolved (args : InputArguments)
  (io : value) (settings : Settings) (flags : value) (schedule : list signal) :
  let st := multiSemanticRelease args io settings flags schedule in
  (forall p, In p (st_packages (multiSemanticRelease args io settings flags []))
             -> result p = None)
  /\ forall i,
       match nth_error (st_tasks st) i with
       | Some Done =>
           exists pkg r,
             nth_error (st_packages st) i = Some pkg
             /\ result pkg = Some r
             /\ writes i (st_trace st) = [r]
             /\ In (Settle i (Resolve r)) schedule
       | Some _ =>
           exists pkg,
             nth_error (st_packages st) i = Some pkg
             /\ result pkg = None
             /\ writes i (st_trace st) = []
       | None =>
           writes i (st_trace st) = []
           /\ forall pkg, nth_error (st_packages st) i = Some pkg ->
                          result pkg = None
       end.
Proof.
  intros st. split.
  - destruct (multiSemanticRelease_cases args io settings flags [])
      as [(e & _ & ->)|[(_ & e & pk & tr & -> & _ & _ & _ & Hres)
                       |(_ & pk & ctx & tr & _ & Hres & _ & _ & ->)]];
      simpl.
    + intros p [].
    + exact Hres.
    + rewrite launch_packages. intros p Hp. now apply Hres.
  - intros i.
    destruct (multiSemanticRelease_cases args io settings flags schedule)
      as [(e & _ & Hst)|[(_ & e & pk & tr & Hst & _ & _ & Hev & Hres)
                        |(_ & pk & ctx & tr & Hev & Hres & _ & _ & Hst)]];
      fold st in Hst.
    + rewrite Hst. simpl. destruct i; simpl; split; auto; discriminate.
    + rewrite Hst. simpl.
      assert (nth_error (@nil task) i = None) as -> by (destruct i; reflexivity).
      split.
      * apply writes_none. intros ev Hin.
        now apply Hev, is_loading_event in Hin.
      * intros pkg Hp. apply Hres. eapply nth_error_In; eauto.
    + set (flags' := default flags default_flags) in *.
      set (cip := createInlinePluginCreator pk ctx flags') in *.
      assert (Hinv : invariant cip flags' pk st).
      { rewrite Hst. apply invariant_run, invariant_launch; auto.
        intros p Hp. now apply Hres. }
      destruct Hinv as (Hshape & (Hdone & Hnot & Hout) & _ & _).
      destruct (nth_error (st_tasks st) i) as [t|] eqn:Et.
      * destruct t; try (apply (Hnot i _ Et); discriminate).
        destruct (Hdone i Et) as (pkg & r & Hp & Hr & Hw).
        exists pkg, r. repeat split; auto.
        assert (Hin : In (ESetResult i r) (st_trace st)).
        { apply writes_In. rewrite Hw. now left. }
        rewrite Hst in Hin.
        destruct (launched_trace cip flags' pk tr schedule Hev)
          as (c & evs & Htr & Hc & Hevs).
        rewrite Htr in Hin.
        apply in_app_or in Hin as [Hin|Hin].
        { apply Hev, is_loading_event in Hin as (_ & _ & _ & _ & Hn & _).
          now destruct (Hn i r). }
        simpl in Hin. destruct Hin as [Hin|[Hin|[Hin|Hin]]]; try discriminate.
        apply in_app_or in Hin as [Hin|Hin].
        { apply startTasks_events in Hin as (_ & _ & _ & Hn & _).
          now destruct (Hn i r). }
        apply in_app_or in Hin as [Hin|Hin].
        { rewrite Forall_forall in Hc. apply Hc in Hin. discriminate. }
        rewrite Forall_forall in Hevs. apply (Hevs _ Hin).
      * split; [now apply Hout|].
        intros pkg Hp. exfalso.
        assert (i < List.length (st_packages st))
          by (apply nth_error_Some; congruence).
        rewrite (shape_lengths cip flags' pk st Hshape) in *.
        apply nth_error_None in Et. lia.
Qed.

(** *** The options handed to the release engine *)

Lemma forget_options_resolved (ctx : MultiContext) (p q : Package) :
  forget p = forget q -> options_resolved ctx p -> options_resolved ctx q.
Proof.
  unfold forget. intros Hf (context & Ho).
  injection Hf as Hpath Hdir Hname Hman Hdeps Hopt Hplug Hlog Hloc.
  exists context. now rewrite <- Hopt, <- Hdir.
Qed.

(** Every call of semanticRelease() a run makes got the options that
    releasePackage() builds from the flags, the options of the package and
    its inline plugin. *)
Lemma semanticRelease_calls (args : InputArguments) (io : value)
  (settings : Settings) (flags : value) (schedule : list signal) :
  let flags' := default flags default_flags in
  let st := multiSemanticRelease args io settings flags schedule in
  forall i opts d,
    In (ESemanticRelease i opts d) (st_trace st) ->
    exists pkg ctx plugin,
      nth_error (st_packages st) i = Some pkg
      /\ opts = releaseOptions flags' pkg plugin
      /\ d = dir pkg
      /\ options_resolved ctx pkg
      /\ inputOptions ctx = default io (VObj Plain [])
      /\ globalOptions ctx = getConfig (cwd ctx).
Proof.
  intros flags' st i opts d Hin.
  destruct (multiSemanticRelease_cases args io settings flags schedule)
    as [(e & _ & Hst)|[(_ & e & pk & tr & Hst & _ & _ & Hev & _)
                      |(_ & pk & ctx & tr & Hev & Hres & Hio & Hgo & Hst)]];
    fold st in Hst; fold flags' in Hst.
  - rewrite Hst in Hin. destruct Hin.
  - rewrite Hst in Hin. simpl in Hin.
    apply Hev, is_loading_event in Hin as (_ & _ & _ & _ & _ & Hn).
    now destruct (Hn i opts d).
  - set (cip := createInlinePluginCreator pk ctx flags') in *.
    assert (Hinv : invariant cip flags' pk st).
    { rewrite Hst. apply invariant_run, invariant_launch; auto.
      intros p Hp. now apply Hres. }
    destruct Hinv as ((Hmap & _) & _ & _ & Hcalls).
    destruct (Hcalls i opts d Hin) as (p0 & Hp0 & -> & ->).
    destruct (forget_nth (st_packages st) pk i p0 (eq_sym Hmap) Hp0)
      as (pkg & Hpkg & Hf).
    exists pkg, ctx, (cip i).
    destruct (forget_releaseOptions flags' pkg p0 (cip i) Hf) as [-> ->].
    repeat split; auto.
    apply (forget_options_resolved ctx p0 pkg); [congruence|].
    apply Hres. eapply nth_error_In; eauto.
Qed.

Lemma releaseOptions_tagFormat (flags : value) (pkg : Package) (plugin : value) :
  lookup "tagFormat" (releaseOptions flags pkg plugin)
  = Some (string_plus (name pkg) "@${version}").
Proof.
  unfold releaseOptions. rewrite lookup_assign_other by discriminate.
  apply lookup_assign_same.
Qed.

(** C5: in every run, whatever the global options, the options of the
    package, the flags and the inline plugin hold, every call of
    semanticRelease() receives, under "tagFormat", the name of its package
    followed by "@${version}". *)
Theorem tagFormat_is_forced (args : InputArguments) (io : value)
  (settings : Settings) (flags : value) (schedule : list signal) :
  let st := multiSemanticRelease args io settings flags schedule in
  forall i opts d,
    In (ESemanticRelease i opts d) (st_trace st) ->
    exists pkg,
      nth_error (st_packages st) i = Some pkg
      /\ lookup "tagFormat" opts = Some (string_plus (name pkg) "@${version}")
      /\ forall n, name pkg = VStr n ->
           lookup "tagFormat" opts
           = Some (VStr (String.append n "@${version}")).
Proof.
  intros st i opts d Hin.
  destruct (semanticRelease_calls args io settings flags schedule i opts d Hin)
    as (pkg & ctx & plugin & Hp & -> & _).
  exists pkg. split; [assumption|].
  rewrite releaseOptions_tagFormat. split; [reflexivity|].
  intros n Hn. unfold string_plus. now rewrite Hn.
Qed.




(** *** The sequentialInit gate *)



(** *** The parameter checks *)

(** The parameters are rejected: neither list is supplied (both are
    falsy), or a supplied list is not of its shape, or one of cwd, env,
    stdout and stderr, after defaults, is not of its shape. *)
Definition rejected_params (args : InputArguments) (settings : Settings)
  : Prop :=
  (truthy (paths args) = false /\ truthy (packageManifests args) = false)
  \/ (truthy (paths args) = true /\ check (paths args) StringList = false)
  \/ (truthy (packageManifests args) = true
      /\ check (packageManifests args) ObjectlikeList = false)
  \/ check (default (s_cwd settings) process_cwd) Directory = false
  \/ check (default (s_env settings) process_env) Objectlike = false
  \/ check (default (s_stdout settings) process_stdout) Stream = false
  \/ check (default (s_stderr settings) process_stderr) Stream = false.



(** *** The cycle check *)

(** C2: for every input whose packages load, if the sequentialPrepare
    flag is truthy and the linked packages contain a directed cycle, the
    run throws the cyclic-dependency error with no task started and no
    event of the pipeline phase (no synchronizer, no inline plugin, no
    semanticRelease() call); if the flag is falsy, the cycle check is not
    called and the run does not throw this error, cyclic or not. *)
Theorem cyclic_graph_is_rejected_under_sequentialPrepare
  (args : InputArguments) (io : value) (settings : Settings) (flags : value)
  (schedule : list signal) (trace : list event) (packages : list Package)
  (ctx : MultiContext) (sequentialPrepare : value) :
  load args io settings = (trace, Ok (packages, ctx)) ->
  get (default flags default_flags) "sequentialPrepare" = Ok sequentialPrepare ->
  let st := multiSemanticRelease args io settings flags schedule in
  (truthy sequentialPrepare = true -> has_cycle packages ->
     st_main st = Thrown CyclicError
     /\ st_tasks st = []
     /\ forall ev, In ev (st_trace st) -> is_pipeline ev = false)
  /\ (truthy sequentialPrepare = false ->
        st_main st <> Thrown CyclicError
        /\ ~ In EIsCyclicProject (st_trace st)).
Proof.
  intros Hload Hget st.
  pose proof (load_cases args io settings) as Hl. rewrite Hload in Hl.
  destruct Hl as (_ & _ & (loaded & ->) & Hres & Hev & _ & _).
  unfold st, multiSemanticRelease. rewrite Hload, Hget.
  split.
  - intros Hsp Hcyc. rewrite Hsp.
    apply isCyclicProject_has_cycle in Hcyc. rewrite Hcyc. simpl.
    repeat split. intros ev Hin.
    apply in_app_or in Hin as [Hin|[<-|[<-|[]]]]; try reflexivity.
    apply Hev in Hin as [Hin _]. now apply is_loading_event in Hin.
  - intros Hsp. rewrite Hsp.
    set (flags' := default flags default_flags).
    set (cip := createInlinePluginCreator (linkPackages loaded) ctx flags').
    assert (Hev' : forall ev, In ev trace -> is_loading ev = true)
      by (intros ev Hin; now apply Hev).
    split.
    + assert (Hinv : invariant cip flags' (linkPackages loaded)
                       (run cip flags' (launch cip flags' (linkPackages loaded) trace)
                          schedule)).
      { apply invariant_run, invariant_launch; auto.
        intros p Hp. now apply Hres. }
      destruct Hinv as (_ & _ & Hmain & _). unfold main_ok in Hmain.
      intros Heq. rewrite Heq in Hmain.
      destruct Hmain as (_ & i & reason & Hdisc & _). discriminate.
    + intros Hin.
      destruct (launched_trace cip flags' (linkPackages loaded) trace schedule Hev')
        as (c & evs & Htr & Hc & Hevs).
      rewrite Htr in Hin.
      apply in_app_or in Hin as [Hin|Hin].
      { now apply Hev in Hin. }
      simpl in Hin. destruct Hin as [Hin|[Hin|[Hin|Hin]]]; try discriminate.
      apply in_app_or in Hin as [Hin|Hin].
      { apply startTasks_events in Hin as (_ & _ & Hn & _). discriminate. }
      apply in_app_or in Hin as [Hin|Hin].
      { rewrite Forall_forall in Hc. apply Hc in Hin. discriminate. }
      rewrite Forall_forall in Hevs. apply Hevs in Hin. exact Hin.
Qed.

End Outcome.



(** A run in which both pipelines resolve. *)
Example both_pipelines_resolve :
  let st := @multiSemanticRelease Sample.host Sample.two_packages VUndef
              Sample.no_settings VUndef
              [Settle 1 (Resolve Skipped); Settle 0 (Resolve Sample.a_release)] in
  st_main st = Returned (st_packages st)
  /\ map result (st_packages st) = [Some Sample.a_release; Some Skipped]
  /\ last (st_trace st) EGetSynchronizer = ELog Complete (ReleasedOf 1 2).
Proof. repeat split; reflexivity. Qed.

(** C7 as stated fails: pkg-a's semanticRelease() call is rejected; every
    task has settled, and the result of pkg-a was never written. *)
Lemma result_never_written_on_failure :
  let st := @multiSemanticRelease Sample.host Sample.two_packages VUndef
              Sample.no_settings VUndef
              [Settle 0 (Reject VNull); Settle 1 (Resolve Skipped)] in
  st_tasks st = [Failed (EngineError VNull); Done]
  /\ writes 0 (st_trace st) = []
  /\ writes 1 (st_trace st) = [Skipped]
  /\ map result (st_packages st) = [None; Some Skipped].
Proof. repeat split; reflexivity. Qed.

(** pkg-a, released with a flag that asks for the tag format "v${version}",
    is still tagged by the format "pkg-a@${version}". *)
Lemma tagFormat_is_forced_for_pkg_a :
  let flags := VObj Plain [("tagFormat", VStr "v${version}")] in
  let st := @multiSemanticRelease Sample.host Sample.two_packages VUndef
              Sample.no_settings flags [] in
  let opts := @releaseOptions Sample.host flags Sample.linked_pkg_a
                Sample.inline_plugin in
  own flags "tagFormat" = Some (VStr "v${version}")
  /\ exists pkg,
       nth_error (st_packages st) 0 = Some pkg
       /\ lookup "tagFormat" opts
          = Some (@string_plus Sample.host (name pkg) "@${version}")
       /\ forall n, name pkg = VStr n ->
            lookup "tagFormat" opts
            = Some (VStr (String.append n "@${version}")).
Proof.
  split; [reflexivity|].
  apply (@tagFormat_is_forced Sample.host Sample.two_packages VUndef
           Sample.no_settings
           (VObj Plain [("tagFormat", VStr "v${version}")]) [] 0 _
           (VStr "/repo/pkg-a")).
  vm_compute. do 9 right. left. reflexivity.
Defined.

Example tagFormat_of_pkg_a :
  lookup "tagFormat"
    (@releaseOptions Sample.host
       (VObj Plain [("tagFormat", VStr "v${version}")])
       (Sample.package "pkg-a" []) Sample.inline_plugin)
  = Some (VStr "pkg-a@${version}").
Proof. reflexivity. Qed.



(** The cyclic sample: with sequentialPrepare the run is rejected before
    the pipeline phase; without it the cycle is not looked for. *)
Lemma cyclic_sample_is_rejected :
  let on := @multiSemanticRelease Sample.host Sample.cyclic_packages VUndef
              Sample.no_settings
              (VObj Plain [("sequentialPrepare", VBool true)]) [] in
  let off := @multiSemanticRelease Sample.host Sample.cyclic_packages VUndef
               Sample.no_settings VUndef [] in
  map localDeps (st_packages on) = [Some [1]; Some [0]]
  /\ has_cycle (st_packages on)
  /\ (st_main on = Thrown CyclicError
      /\ st_tasks on = []
      /\ forall ev, In ev (st_trace on) -> is_pipeline ev = false)
  /\ (st_main off <> Thrown CyclicError
      /\ ~ In EIsCyclicProject (st_trace off)).
Proof.
  set (packages :=
         st_packages
           (@multiSemanticRelease Sample.host Sample.cyclic_packages VUndef
              Sample.no_settings
              (VObj Plain [("sequentialPrepare", VBool true)]) [])).
  set (ctx := mkContext (VObj Plain []) (VObj Plain []) (VStr "/repo")
                (VObj Plain []) Sample.a_stream Sample.a_stream).
  assert (Hcyc : has_cycle packages).
  { exists 0. apply (walk_step _ 0 1 0); [now left|].
    apply walk_edge. now left. }
  split; [reflexivity|]. split; [exact Hcyc|]. split.
  - apply (@cyclic_graph_is_rejected_under_sequentialPrepare Sample.host
             Sample.cyclic_packages VUndef Sample.no_settings
             (VObj Plain [("sequentialPrepare", VBool true)]) []
             (fst (@load Sample.host Sample.cyclic_packages VUndef
                     Sample.no_settings))
             packages ctx (VBool true)); try reflexivity.
    exact Hcyc.
  - apply (@cyclic_graph_is_rejected_under_sequentialPrepare Sample.host
             Sample.cyclic_packages VUndef Sample.no_settings VUndef []
             (fst (@load Sample.host Sample.cyclic_packages VUndef
                     Sample.no_settings))
             packages ctx VUndef); reflexivity.
Defined.


(** Where two loaded records bear one name, [find] gives the first, and
    only the first is linked. *)
Example localDeps_take_the_first_of_a_name :
  map localDeps
    (st_packages (@multiSemanticRelease Sample.host Sample.same_name_packages
                    VUndef Sample.no_settings VUndef []))
  = [Some []; Some []; Some [0]].
Proof. reflexivity. Qed.


(** Without a list, and with a list of the wrong shape, the run stops at
    the checks. *)
Example missing_lists_are_rejected :
  let st := @multiSemanticRelease Sample.host (mkInput VUndef VUndef) VUndef
              Sample.no_settings VUndef [] in
  @rejected_params Sample.host (mkInput VUndef VUndef) Sample.no_settings
  /\ st_main st = Thrown ProvideError /\ st_trace st = [].
Proof. split; [left; split; reflexivity|split; reflexivity]. Qed.

Example ill_shaped_paths_are_rejected :
  let args := mkInput (VStr "packages/a/package.json") VUndef in
  let st := @multiSemanticRelease Sample.host args VUndef
              Sample.no_settings VUndef [] in
  @rejected_params Sample.host args Sample.no_settings
  /\ st_main st = Thrown (CheckError "paths") /\ st_trace st = [].
Proof. split; [right; left; split; reflexivity|split; reflexivity]. Qed.

End MsrFacts.

(* ===================================================================== *)
(** ** Loading and linking the packages *)
(* ===================================================================== *)

Module PackageFacts.
Import JS Lodash Msr JSFacts GraphFacts MsrFacts.

(** *** Vocabulary *)

(** [k] names an own property of [v]. *)
Definition own_key (v : value) (k : string) : Prop :=
  match v with
  | VObj _ o => In k (keys o)
  | _ => False
  end.

(** The sections of a package.json whose keys [getPackage] collects. *)
Definition dependency_kinds : list string :=
  ["dependencies"; "devDependencies"; "peerDependencies";
   "optionalDependencies"].

(** The manifest names [d] as a dependency of some kind. *)
Definition declares (manifest : value) (d : string) : Prop :=
  exists kind, In kind dependency_kinds /\ own_key (prop manifest kind) d.

Definition nullish (v : value) : bool :=
  match v with
  | VUndef | VNull => true
  | _ => false
  end.

(** The sources of a run: [paths || packageManifests]. *)
Definition sources_of (args : InputArguments) : list value :=
  elements (if truthy (paths args) then paths args else packageManifests args).

(** *** The keys of a merged object *)

Lemma keys_assign_prop (k : string) (v : value) (o : props) :
  keys (assign_prop k v o) = if has_key k o then keys o else keys o ++ [k].
Proof.
  unfold has_key. induction o as [|[k' v'] o IH]; simpl; auto.
  destruct (String.eqb_spec k k') as [->|Hne]; simpl; auto.
  rewrite IH. destruct (lookup k o); reflexivity.
Qed.

Lemma has_key_In (k : string) (o : props) :
  has_key k o = true <-> In k (keys o).
Proof.
  unfold has_key. induction o as [|[k' v'] o IH]; simpl.
  - split; [discriminate|contradiction].
  - destruct (String.eqb_spec k k') as [->|Hne].
    + split; auto.
    + rewrite IH. split; auto. intros [Heq|Hin]; [congruence|assumption].
Qed.

Lemma keys_assign_In (k x : string) (v : value) (o : props) :
  In x (keys (assign_prop k v o)) <-> x = k \/ In x (keys o).
Proof.
  rewrite keys_assign_prop. destruct (has_key k o) eqn:E.
  - apply has_key_In in E. split; auto. intros [->|Hin]; auto.
  - rewrite in_app_iff. simpl. intuition.
Qed.

Lemma keys_assign_NoDup (k : string) (v : value) (o : props) :
  NoDup (keys o) -> NoDup (keys (assign_prop k v o)).
Proof.
  intros Hnd. rewrite keys_assign_prop. destruct (has_key k o) eqn:E; auto.
  apply NoDup_app; auto.
  - repeat constructor. intros [].
  - intros x Hx [<-|[]]. apply has_key_In in Hx. congruence.
Qed.

Lemma keys_spread_In (x : string) (t : props) (src : value) :
  In x (keys (spread t src)) <-> In x (keys t) \/ own_key src x.
Proof.
  destruct src as [| | | | |c o]; simpl; try tauto.
  revert t. induction o as [|[k v] o IH]; intros t; simpl; [tauto|].
  rewrite IH, keys_assign_In. intuition.
Qed.

Lemma keys_spread_NoDup (t : props) (src : value) :
  NoDup (keys t) -> NoDup (keys (spread t src)).
Proof.
  destruct src as [| | | | |c o]; simpl; auto.
  revert t. induction o as [|[k v] o IH]; intros t Hnd; simpl; auto.
  apply IH. now apply keys_assign_NoDup.
Qed.

Section Packages.

Context {H : Host}.

(** The multirelease context of a run: the settings with their defaults,
    the working directory cleaned, the global options read from it. *)
Definition multiContext_of (io : value) (settings : Settings) : MultiContext :=
  let cwd := cleanPath (default (s_cwd settings) process_cwd) VUndef in
  mkContext (getConfig cwd) (default io (VObj Plain [])) cwd
    (default (s_env settings) process_env)
    (default (s_stdout settings) process_stdout)
    (default (s_stderr settings) process_stderr).

(** *** [getPackage] *)

Lemma get_Ok (v : value) (k : string) (x : value) :
  get v k = Ok x -> x = prop v k /\ nullish v = false.
Proof. destruct v; simpl; intros Hg; try discriminate; split; congruence. Qed.

(** The fields of a loaded package, read off [getPackage]. *)
Lemma getPackage_fields (s : value) (ctx : MultiContext) (pkg : Package) :
  getPackage s ctx = Ok pkg ->
  let r := resolvePackageOrPath s (cwd ctx) in
  nullish r = false
  /\ nullish (manifest pkg) = false
  /\ dir pkg = prop r "dir"
  /\ path pkg = prop r "path"
  /\ manifest pkg = prop r "manifest"
  /\ name pkg = prop (manifest pkg) "name"
  /\ deps pkg
     = keys (spread (spread (spread (spread []
               (prop (manifest pkg) "dependencies"))
               (prop (manifest pkg) "devDependencies"))
               (prop (manifest pkg) "peerDependencies"))
               (prop (manifest pkg) "optionalDependencies")).
Proof.
  intros Hg r. unfold getPackage in Hg. fold r in Hg.
  apply bind_Ok in Hg as (d & Hd & Hg). apply get_Ok in Hd as [-> Hr].
  apply bind_Ok in Hg as (p & Hp & Hg). apply get_Ok in Hp as [-> _].
  apply bind_Ok in Hg as (m & Hm & Hg). apply get_Ok in Hm as [-> _].
  apply bind_Ok in Hg as (n & Hn & Hg). apply get_Ok in Hn as [-> Hman].
  apply bind_Ok in Hg as (d1 & H1 & Hg). apply get_Ok in H1 as [-> _].
  apply bind_Ok in Hg as (d2 & H2 & Hg). apply get_Ok in H2 as [-> _].
  apply bind_Ok in Hg as (d3 & H3 & Hg). apply get_Ok in H3 as [-> _].
  apply bind_Ok in Hg as (d4 & H4 & Hg). apply get_Ok in H4 as [-> _].
  match type of Hg with context [getConfigSemantic ?c ?f] =>
    destruct (getConfigSemantic c f) as [o pl] end.
  injection Hg as <-. simpl. repeat split; auto.
Qed.

(** X1: the [deps] of a loaded package are the names its manifest declares
    under dependencies, devDependencies, peerDependencies or
    optionalDependencies, each name once, however many of the four
    sections declare it. *)
Theorem getPackage_collects_declared_names (s : value) (ctx : MultiContext)
  (pkg : Package) :
  getPackage s ctx = Ok pkg ->
  NoDup (deps pkg)
  /\ forall d, In d (deps pkg) <-> declares (manifest pkg) d.
Proof.
  intros Hg. destruct (getPackage_fields s ctx pkg Hg)
    as (_ & _ & _ & _ & _ & _ & Hdeps).
  rewrite Hdeps. split.
  - repeat apply keys_spread_NoDup. constructor.
  - intros d. rewrite !keys_spread_In. unfold declares, dependency_kinds.
    simpl. split.
    + intros [[[[[]|H1]|H2]|H3]|H4];
        [exists "dependencies"|exists "devDependencies"
        |exists "peerDependencies"|exists "optionalDependencies"];
        simpl; auto 6.
    + intros (kind & [<-|[<-|[<-|[<-|[]]]]] & Hk); auto.
Qed.


(** *** [Promise.all] over the sources *)


(** *** Linking *)

Lemma filter_Boolean_length (l : list (option nat)) :
  List.length (filter_Boolean l) <= List.length l.
Proof. induction l as [|[i|] l IH]; simpl; lia. Qed.

Lemma uniq_length (l : list nat) : List.length (uniq l) <= List.length l.
Proof.
  induction l as [|x l IH]; simpl; auto.
  pose proof (filter_length_le (fun y => negb (Nat.eqb y x)) (uniq l)). lia.
Qed.

(** X4: whatever the names of the loaded packages, after the linking pass
    a package's [localDeps] is defined, refers to no package twice, has at
    most as many references as the package has dependency names, and
    refers to a package exactly when that package is the first one, in
    loading order, to bear one of these names. *)
Theorem localDeps_are_the_first_bearers (loaded : list Package) (i : nat)
  (pkg : Package) :
  nth_error (linkPackages loaded) i = Some pkg ->
  exists l,
    localDeps pkg = Some l
    /\ NoDup l
    /\ List.length l <= List.length (deps pkg)
    /\ forall j,
         In j l <->
         exists d q,
           In d (deps pkg) /\ nth_error loaded j = Some q /\ name q = VStr d
           /\ forall m q', m < j -> nth_error loaded m = Some q' ->
                           name q' <> VStr d.
Proof.
  intros Hi. apply linkPackages_nth in Hi as (p & Hp & ->).
  exists (resolveLocalDeps loaded p). split; [reflexivity|]. split; [|split].
  - apply uniq_NoDup.
  - simpl. unfold resolveLocalDeps.
    etransitivity; [apply uniq_length|].
    etransitivity; [apply filter_Boolean_length|]. now rewrite length_map.
  - intros j. rewrite resolveLocalDeps_find. simpl. split.
    + intros (d & Hd & Hfind). unfold find in Hfind.
      apply find_from_first in Hfind as (n & q & -> & Hn & Hq & Hfirst).
      exists d, q. simpl. repeat split; auto.
      * now apply named_name.
      * intros m q' Hm Hq' Hname. apply named_name in Hname.
        rewrite (Hfirst m q' Hm Hq') in Hname. discriminate.
    + intros (d & q & Hd & Hq & Hname & Hfirst).
      exists d. split; [assumption|]. unfold find. apply find_from_first.
      exists j, q. repeat split; auto.
      * now apply named_name.
      * intros m p0 Hm Hp0. destruct (named d p0) eqn:E; [|reflexivity].
        apply named_name in E. now destruct (Hfirst m p0 Hm Hp0).
Qed.

Lemma filter_all {A : Type} (f : A -> bool) (l : list A) :
  (forall x, In x l -> f x = true) -> filter f l = l.
Proof.
  induction l as [|x l IH]; simpl; intros Hall; auto.
  rewrite (Hall x) by auto. f_equal. auto.
Qed.

Lemma uniq_of_NoDup (l : list nat) : NoDup l -> uniq l = l.
Proof.
  induction 1 as [|x l Hx Hnd IH]; simpl; auto.
  rewrite IH. f_equal. apply filter_all.
  intros y Hy. apply negb_true_iff, Nat.eqb_neq. congruence.
Qed.

(** Different names are resolved to different packages. *)
Lemma find_injective (packages : list Package) (d1 d2 : string) (j : nat) :
  find packages d1 = Some j -> find packages d2 = Some j -> d1 = d2.
Proof.
  unfold find. rewrite !find_from_first.
  intros (n1 & q1 & E1 & Hn1 & Hq1 & _) (n2 & q2 & E2 & Hn2 & Hq2 & _).
  simpl in E1, E2. subst n1 n2. rewrite Hn1 in Hn2. injection Hn2 as <-.
  apply named_name in Hq1, Hq2. congruence.
Qed.

Lemma resolved_NoDup (packages : list Package) (names : list string) :
  NoDup names -> NoDup (filter_Boolean (map (find packages) names)).
Proof.
  induction 1 as [|d names Hd Hnd IH]; simpl; [constructor|].
  destruct (find packages d) as [j|] eqn:Ej; auto.
  constructor; auto.
  rewrite filter_Boolean_In, in_map_iff. intros (d' & Hj & Hin).
  rewrite (find_injective packages d d' j Ej Hj) in Hd. contradiction.
Qed.

Lemma find_from_same_names (f : Package -> Package) (d : string)
  (packages : list Package) :
  (forall p, name (f p) = name p) ->
  forall i, find_from i d (map f packages) = find_from i d packages.
Proof.
  intros Hf. induction packages as [|p rest IH]; intros i; simpl; auto.
  unfold named. rewrite Hf. fold (named d p).
  destruct (named d p); auto.
Qed.

Lemma find_linked (loaded : list Package) (d : string) :
  find (linkPackages loaded) d = find loaded d.
Proof.
  unfold find, linkPackages. now apply find_from_same_names.
Qed.

(** The run up to the cycle check, when it succeeds. *)
Lemma load_Ok (args : InputArguments) (io : value) (settings : Settings)
  (trace : list event) (packages : list Package) (ctx : MultiContext) :
  load args io settings = (trace, Ok (packages, ctx)) ->
  exists loaded,
    checked args settings = Ok tt
    /\ ctx = multiContext_of io settings
    /\ loadPackages (sources_of args) ctx = Ok loaded
    /\ packages = linkPackages loaded
    /\ trace
       = ELog Complete (Started (List.length (sources_of args)))
         :: map EGetPackage (sources_of args)
         ++ map (fun pkg => ELog Success (Loaded (name pkg))) packages.
Proof.
  intros Hload. unfold load in Hload.
  fold (checked args settings) in Hload. fold (sources_of args) in Hload.
  destruct (checked args settings) as [[]|e]; [|discriminate].
  fold (multiContext_of io settings) in Hload.
  destruct (loadPackages (sources_of args) (multiContext_of io settings))
    as [loaded|e] eqn:El; [|discriminate].
  injection Hload as <- <- <-. exists loaded. repeat split; auto.
Qed.

(** X5: the packages a run loads are linked in the order of their
    dependency names: [Object.keys] gives each name once and different
    names resolve to different packages, so [uniq] has nothing to remove,
    and [localDeps] lists, for the dependency names in the order of
    [deps], the packages they resolve to. *)
Theorem localDeps_follow_the_order_of_deps (args : InputArguments)
  (io : value) (settings : Settings) (trace : list event)
  (packages : list Package) (ctx : MultiContext) :
  load args io settings = (trace, Ok (packages, ctx)) ->
  forall pkg, In pkg packages ->
    NoDup (deps pkg)
    /\ localDeps pkg
       = Some (filter_Boolean (map (find packages) (deps pkg))).
Proof.
  intros Hload pkg Hin.
  destruct (load_Ok args io settings trace packages ctx Hload)
    as (loaded & _ & _ & Hl & -> & _).
  apply linkPackages_In in Hin as (p0 & Hp0 & ->). simpl.
  assert (Hnd : NoDup (deps p0)).
  { clear - Hl Hp0. revert loaded Hl Hp0.
    generalize (sources_of args). intros sources. induction sources as [|s rest IH]; simpl; intros loaded Hl Hp0.
    - injection Hl as <-. destruct Hp0.
    - apply bind_Ok in Hl as (pkg & Hpkg & Hl).
      apply bind_Ok in Hl as (pkgs & Hpkgs & Hl). injection Hl as <-.
      destruct Hp0 as [<-|Hp0]; [|eauto].
      destruct (getPackage_fields s ctx pkg Hpkg)
        as (_ & _ & _ & _ & _ & _ & ->).
      repeat apply keys_spread_NoDup. constructor. }
  split; [assumption|]. f_equal. unfold resolveLocalDeps.
  rewrite uniq_of_NoDup by now apply resolved_NoDup.
  f_equal. apply map_ext. intros d. symmetry. apply find_linked.
Qed.

End Packages.

(** Package a of the repository on disk names pkg-b under two sections;
    its [deps] holds it once. *)
Lemma deps_of_package_a :
  let ctx := @multiContext_of Disk.host VUndef Sample.no_settings in
  let pkg :=
    mkPackage (VStr Disk.path_a) (VStr "/repo/packages/a") (VStr "pkg-a")
      Disk.manifest_a ["pkg-b"; "mocha"; "fsevents"] (VObj Plain [])
      (VObj Plain []) fake_logger None None in
  @getPackage Disk.host (VStr "packages/a/package.json") ctx = Ok pkg
  /\ NoDup (deps pkg)
  /\ forall d, In d (deps pkg) <-> declares (manifest pkg) d.
Proof.
  split; [reflexivity|].
  apply (@getPackage_collects_declared_names Disk.host
           (VStr "packages/a/package.json")
           (@multiContext_of Disk.host VUndef Sample.no_settings)).
  reflexivity.
Defined.

(** A path with no manifest behind it, and a source that carries none. *)
Example getPackage_without_manifest :
  let ctx := @multiContext_of Disk.host VUndef Sample.no_settings in
  @getPackage Disk.host (VStr "packages/c/package.json") ctx
  = Throw (TypeError "name")
  /\ @getPackage Disk.host (VObj Plain [("dir", VStr "/repo/packages/c")]) ctx
     = Throw (TypeError "name")
  /\ exists pkg,
       @getPackage Disk.host
         (VObj Plain [("dir", VStr "/repo/packages/c");
                      ("manifest", VObj Plain [])]) ctx
       = Ok pkg
       /\ name pkg = VUndef /\ deps pkg = [].
Proof.
  split; [reflexivity|]. split; [reflexivity|].
  eexists. split; [reflexivity|]. split; reflexivity.
Qed.

(** Two records bear the name pkg-a: the package that depends on it is
    linked to the first. *)
Lemma localDeps_of_a_repeated_name :
  let loaded := [Sample.package "pkg-a" []; Sample.package "pkg-a" [];
                 Sample.package "pkg-b" ["pkg-a"]] in
  let pkg := set_localDeps (Sample.package "pkg-b" ["pkg-a"]) [0] in
  nth_error (linkPackages loaded) 2 = Some pkg
  /\ exists l,
       localDeps pkg = Some l
       /\ NoDup l
       /\ List.length l <= List.length (deps pkg)
       /\ forall j,
            In j l <->
            exists d q,
              In d (deps pkg) /\ nth_error loaded j = Some q
              /\ name q = VStr d
              /\ forall m q', m < j -> nth_error loaded m = Some q' ->
                              name q' <> VStr d.
Proof.
  split; [reflexivity|].
  apply (localDeps_are_the_first_bearers
           [Sample.package "pkg-a" []; Sample.package "pkg-a" [];
            Sample.package "pkg-b" ["pkg-a"]] 2).
  reflexivity.
Defined.

(** The repository on disk: package a is linked to package b, once. *)
Lemma localDeps_order_on_disk :
  let run := @multiSemanticRelease Disk.host Disk.two_paths VUndef
               Sample.no_settings VUndef [] in
  let trace := fst (@load Disk.host Disk.two_paths VUndef Sample.no_settings) in
  let ctx := @multiContext_of Disk.host VUndef Sample.no_settings in
  @load Disk.host Disk.two_paths VUndef Sample.no_settings
  = (trace, Ok (st_packages run, ctx))
  /\ map deps (st_packages run) = [["pkg-b"; "mocha"; "fsevents"]; []]
  /\ map localDeps (st_packages run) = [Some [1]; Some []]
  /\ forall pkg, In pkg (st_packages run) ->
       NoDup (deps pkg)
       /\ localDeps pkg
          = Some (filter_Boolean (map (find (st_packages run)) (deps pkg))).
Proof.
  split; [reflexivity|]. split; [reflexivity|]. split; [reflexivity|].
  apply (@localDeps_follow_the_order_of_deps Disk.host Disk.two_paths VUndef
           Sample.no_settings
           (fst (@load Disk.host Disk.two_paths VUndef Sample.no_settings))
           _ (@multiContext_of Disk.host VUndef Sample.no_settings)).
  reflexivity.
Defined.

End PackageFacts.

(* ===================================================================== *)
(** ** The orchestrator: what every schedule preserves *)
(* ===================================================================== *)

Module RunFacts.
Import JS Lodash Msr JSFacts GraphFacts MsrFacts PackageFacts.

(** *** Vocabulary *)

(** The calls of semanticRelease() for the package [i], in order: the
    options and the working directory of each. *)
Fixpoint invocations (i : nat) (trace : list event) : list (props * value) :=
  match trace with
  | [] => []
  | ESemanticRelease j opts d :: t =>
      if Nat.eqb j i then (opts, d) :: invocations i t else invocations i t
  | _ :: t => invocations i t
  end.

(** The signal concerns the task of the package [i]. *)
Definition about (i : nat) (s : signal) : bool :=
  match s with
  | Wake j | Settle j _ => Nat.eqb j i
  end.



Lemma invocations_app (i : nat) (a b : list event) :
  invocations i (a ++ b) = invocations i a ++ invocations i b.
Proof.
  induction a as [|ev a IH]; simpl; auto.
  destruct ev; auto. destruct (Nat.eqb i0 i); simpl; congruence.
Qed.

Lemma invocations_none (i : nat) (tr : list event) :
  (forall ev, In ev tr -> forall j opts d, ev <> ESemanticRelease j opts d) ->
  invocations i tr = [].
Proof.
  induction tr as [|ev tr IH]; simpl; intros Hn; auto.
  destruct ev; try (apply IH; intros; apply Hn; now right).
  exfalso. eapply Hn; [now left|reflexivity].
Qed.

Lemma invocations_summary (i : nat) (c : list event) :
  Forall (fun ev => is_summary ev = true) c -> invocations i c = [].
Proof.
  intros Hc. apply invocations_none. intros ev Hin j opts d ->.
  rewrite Forall_forall in Hc. apply Hc in Hin. discriminate.
Qed.

Section Tasks.

Context {H : Host}.
Variable cip : nat -> value.
Variable flags : value.

#[local] Abbreviation step := (Msr.step cip flags).
#[local] Abbreviation run := (Msr.run cip flags).

Lemma run_app (st : state) (s1 s2 : list signal) :
  run st (s1 ++ s2) = run (run st s1) s2.
Proof. unfold Msr.run. apply fold_left_app. Qed.

(** *** Signals that change nothing *)

Lemma step_no_tasks (st : state) (s : signal) :
  st_tasks st = [] -> step st s = st.
Proof.
  intros Hts. destruct s as [i|i [r|reason]]; simpl;
    rewrite Hts, nth_error_nil; reflexivity.
Qed.

Lemma run_no_tasks (schedule : list signal) (st : state) :
  st_tasks st = [] -> run st schedule = st.
Proof.
  induction schedule as [|s schedule IH]; simpl; intros Hts; auto.
  rewrite step_no_tasks by assumption. auto.
Qed.

Lemma step_all_done (st : state) (s : signal) :
  forallb is_done (st_tasks st) = true -> step st s = st.
Proof.
  intros Hall. destruct s as [i|i [r|reason]]; simpl;
    destruct (nth_error (st_tasks st) i) as [t|] eqn:Et; try reflexivity;
    pose proof (all_done_nth _ _ _ Hall Et) as ->; reflexivity.
Qed.

Lemma run_all_done (schedule : list signal) (st : state) :
  forallb is_done (st_tasks st) = true -> run st schedule = st.
Proof.
  induction schedule as [|s schedule IH]; simpl; intros Hall; auto.
  rewrite step_all_done by assumption. auto.
Qed.

Lemma step_main_settled (st : state) (s : signal) :
  st_main st <> Pending -> st_main (step st s) = st_main st.
Proof.
  intros Hm. destruct s as [i|i [r|reason]]; simpl.
  - destruct (nth_error (st_tasks st) i) as [[| | |]|]; try reflexivity.
    destruct (nth_error (st_packages st) i); reflexivity.
  - destruct (nth_error (st_tasks st) i) as [[| | |]|]; try reflexivity.
    destruct (nth_error (st_packages st) i); try reflexivity.
    unfold conclude. simpl. destruct (st_main st); [congruence|reflexivity..].
  - destruct (nth_error (st_tasks st) i) as [[| | |]|]; try reflexivity.
    simpl. destruct (st_main st); [congruence|reflexivity..].
Qed.

Lemma run_main_settled (schedule : list signal) (st : state) :
  st_main st <> Pending -> st_main (run st schedule) = st_main st.
Proof.
  revert st. induction schedule as [|s schedule IH]; intros st Hm;
    [reflexivity|].
  change (st_main (run (step st s) schedule) = st_main st).
  rewrite IH; rewrite step_main_settled; auto.
Qed.

(** *** One task along a schedule *)

(** A signal for another package leaves the task and the package alone. *)
Lemma step_other (st : state) (s : signal) (i : nat) :
  about i s = false ->
  nth_error (st_tasks (step st s)) i = nth_error (st_tasks st) i
  /\ nth_error (st_packages (step st s)) i = nth_error (st_packages st) i.
Proof.
  intros Ha. destruct s as [j|j [r|reason]]; simpl in Ha;
    apply Nat.eqb_neq in Ha; simpl.
  - destruct (nth_error (st_tasks st) j) as [[| | |]|]; auto.
    destruct (nth_error (st_packages st) j); auto. simpl.
    rewrite nth_error_update_other by congruence. auto.
  - destruct (nth_error (st_tasks st) j) as [[| | |]|]; auto.
    destruct (nth_error (st_packages st) j); auto.
    rewrite conclude_tasks, conclude_packages. simpl.
    rewrite !nth_error_update_other by congruence. auto.
  - destruct (nth_error (st_tasks st) j) as [[| | |]|]; auto. simpl.
    rewrite nth_error_update_other by congruence. auto.
Qed.





(** A task that waits for the Synchronizer is moved by its wake-up only. *)
Lemma step_waiting (st : state) (s : signal) (i : nat) :
  nth_error (st_tasks st) i = Some WaitReady -> s <> Wake i ->
  nth_error (st_tasks (step st s)) i = Some WaitReady
  /\ nth_error (st_packages (step st s)) i = nth_error (st_packages st) i.
Proof.
  intros Et Hs. destruct (about i s) eqn:Ea.
  - assert (Hst : step st s = st).
    { destruct s as [j|j [r|reason]]; simpl in Ea; apply Nat.eqb_eq in Ea;
        subst j; [congruence| |]; simpl; rewrite Et; reflexivity. }
    rewrite Hst. auto.
  - destruct (step_other st s i Ea) as [-> ->]. auto.
Qed.

Lemma run_waiting (schedule : list signal) (i : nat) :
  forall st,
    nth_error (st_tasks st) i = Some WaitReady ->
    ~ In (Wake i) schedule ->
    nth_error (st_tasks (run st schedule)) i = Some WaitReady
    /\ nth_error (st_packages (run st schedule)) i
       = nth_error (st_packages st) i.
Proof.
  induction schedule as [|s schedule IH]; simpl; intros st Et Hn; auto.
  destruct (step_waiting st s i Et) as [Et' Ep'].
  { intros ->. apply Hn. now left. }
  destruct (IH (step st s) Et') as [-> ->]; auto.
Qed.








(** *** Each pipeline is invoked once *)

(** A task that waits has not called semanticRelease(); a task that runs
    or has settled has called it once. *)
Definition invoked_ok (st : state) : Prop :=
  forall i,
    match nth_error (st_tasks st) i with
    | Some WaitReady | None => invocations i (st_trace st) = []
    | Some _ => List.length (invocations i (st_trace st)) = 1
    end.

(** Every write of a result comes after a call for the same package. *)
Definition written_after_call (tr : list event) : Prop :=
  forall t1 t2 i r, tr = t1 ++ ESetResult i r :: t2 -> invocations i t1 <> [].

Lemma conclude_invoked (st : state) : invoked_ok st -> invoked_ok (conclude st).
Proof.
  intros Hinv i. specialize (Hinv i). rewrite conclude_tasks.
  destruct (conclude_trace st) as (c & -> & Hc).
  rewrite invocations_app, (invocations_summary i c Hc), app_nil_r.
  exact Hinv.
Qed.

Lemma step_invoked (st : state) (s : signal) :
  invoked_ok st -> invoked_ok (step st s).
Proof.
  intros Hinv. destruct s as [i|i [r|reason]]; simpl.
  - destruct (nth_error (st_tasks st) i) as [[| | |]|] eqn:Et; auto.
    destruct (nth_error (st_packages st) i) as [pkg|] eqn:Ep; auto.
    intros j. specialize (Hinv j). simpl. rewrite invocations_app. simpl.
    destruct (Nat.eqb_spec i j) as [->|Hne].
    + rewrite (nth_error_update_same _ _ _ _ Et). rewrite Et in Hinv.
      rewrite Hinv. reflexivity.
    + rewrite nth_error_update_other by congruence. now rewrite app_nil_r.
  - destruct (nth_error (st_tasks st) i) as [[| | |]|] eqn:Et; auto.
    destruct (nth_error (st_packages st) i) as [pkg|] eqn:Ep; auto.
    apply conclude_invoked. intros j. specialize (Hinv j). simpl.
    rewrite invocations_app, app_nil_r.
    destruct (Nat.eq_dec j i) as [->|Hne].
    + rewrite (nth_error_update_same _ _ _ _ Et). now rewrite Et in Hinv.
    + now rewrite nth_error_update_other by congruence.
  - destruct (nth_error (st_tasks st) i) as [[| | |]|] eqn:Et; auto.
    intros j. specialize (Hinv j). simpl.
    destruct (Nat.eq_dec j i) as [->|Hne].
    + rewrite (nth_error_update_same _ _ _ _ Et). now rewrite Et in Hinv.
    + now rewrite nth_error_update_other by congruence.
Qed.

(** The events a signal appends: a write is the first of them, and its task
    was running. *)
Lemma step_writes (st : state) (s : signal) :
  exists evs,
    st_trace (step st s) = st_trace st ++ evs
    /\ forall t1 t2 i r,
         evs = t1 ++ ESetResult i r :: t2 ->
         t1 = [] /\ nth_error (st_tasks st) i = Some Releasing.
Proof.
  assert (Hnil : exists evs : list event,
             st_trace st = st_trace st ++ evs
             /\ forall t1 t2 i r,
                  evs = t1 ++ ESetResult i r :: t2 ->
                  t1 = [] /\ nth_error (st_tasks st) i = Some Releasing).
  { exists []. split; [now rewrite app_nil_r|].
    intros t1 t2 i r Heq. destruct t1; discriminate. }
  destruct s as [i|i [r|reason]]; simpl.
  - destruct (nth_error (st_tasks st) i) as [[| | |]|] eqn:Et; auto.
    destruct (nth_error (st_packages st) i) as [pkg|] eqn:Ep; auto.
    eexists. split; [reflexivity|]. intros t1 t2 j r Heq.
    destruct t1 as [|a [|b [|c t1]]]; discriminate.
  - destruct (nth_error (st_tasks st) i) as [[| | |]|] eqn:Et; auto.
    destruct (nth_error (st_packages st) i) as [pkg|] eqn:Ep; auto.
    match goal with |- context [conclude ?s] =>
      destruct (conclude_trace s) as (c & -> & Hc) end.
    simpl. exists (ESetResult i r :: c). rewrite <- app_assoc.
    split; [reflexivity|]. intros t1 t2 j r' Heq.
    destruct t1 as [|a t1].
    + injection Heq as <- <- <-. auto.
    + injection Heq as <- Heq. exfalso.
      rewrite Forall_forall in Hc.
      assert (Hin : In (ESetResult j r') c)
        by (rewrite Heq; apply in_or_app; right; now left).
      apply Hc in Hin. discriminate.
  - destruct (nth_error (st_tasks st) i) as [[| | |]|] eqn:Et; auto.
Qed.

Lemma step_written (st : state) (s : signal) :
  invoked_ok st -> written_after_call (st_trace st) ->
  written_after_call (st_trace (step st s)).
Proof.
  intros Hinv Hw. destruct (step_writes st s) as (evs & -> & Hevs).
  intros t1 t2 i r Heq.
  apply app_eq_app in Heq as (l & [[Ha Hb]|[Ha Hb]]).
  - destruct l as [|x l].
    + rewrite app_nil_r in Ha. subst t1. simpl in Hb. symmetry in Hb.
      destruct (Hevs [] t2 i r Hb) as [_ Et].
      specialize (Hinv i). rewrite Et in Hinv.
      intros Hnil. rewrite Hnil in Hinv. discriminate.
    + injection Hb as <- Hb. now apply (Hw t1 l i r).
  - destruct (Hevs l t2 i r Hb) as [-> Et]. rewrite app_nil_r in Ha. subst t1.
    specialize (Hinv i). rewrite Et in Hinv.
    intros Hnil. rewrite Hnil in Hinv. discriminate.
Qed.

Lemma run_invoked (schedule : list signal) :
  forall st,
    invoked_ok st -> written_after_call (st_trace st) ->
    invoked_ok (run st schedule)
    /\ written_after_call (st_trace (run st schedule)).
Proof.
  induction schedule as [|s schedule IH]; simpl; intros st Hinv Hw; auto.
  apply IH; [now apply step_invoked|now apply step_written].
Qed.

(** The calls made when the tasks start. *)
Lemma startTasks_invocations (packages : list Package) (i : nat) :
  forall k,
    invocations i (snd (startTasks cip flags k packages))
    = if sequentialInit flags then []
      else if Nat.leb k i
           then match nth_error packages (i - k) with
                | Some p => [(releaseOptions flags p (cip i), dir p)]
                | None => []
                end
           else [].
Proof.
  induction packages as [|p rest IH]; intros k.
  - simpl. destruct (sequentialInit flags), (Nat.leb k i), (i - k); reflexivity.
  - specialize (IH (S k)). cbn [startTasks].
    destruct (startTasks cip flags (S k) rest) as [ts es]. cbn [snd] in IH.
    unfold startTask. fold (sequentialInit flags).
    destruct (sequentialInit flags) eqn:Hsi; cbn [snd];
      rewrite invocations_app, IH; [reflexivity|].
    unfold releasePackage_call. cbn [invocations].
    destruct (Nat.eqb_spec k i) as [->|Hne].
    + rewrite Nat.leb_refl, Nat.sub_diag.
      destruct (Nat.leb_spec (S i) i); [lia|reflexivity].
    + destruct (Nat.leb_spec k i), (Nat.leb_spec (S k) i); try lia; auto.
      replace (i - k) with (S (i - S k)) by lia. reflexivity.
Qed.

(** The state the tasks start in: every task that runs has made its call,
    and nothing is written yet. *)
Lemma launch_invoked (packages : list Package) (trace : list event) :
  (forall ev, In ev trace -> is_loading ev = true) ->
  invoked_ok (launch cip flags packages trace)
  /\ written_after_call (st_trace (launch cip flags packages trace)).
Proof.
  intros Hev.
  destruct (launch_trace cip flags packages trace) as (c & Htr & Hc).
  split.
  - intros i. rewrite launch_tasks, Htr, nth_error_map.
    rewrite !invocations_app, (invocations_summary i c Hc), app_nil_r.
    rewrite (invocations_none i trace).
    2:{ intros ev Hin j opts d. apply Hev, is_loading_event in Hin.
        apply Hin. }
    simpl. rewrite (startTasks_invocations packages i 0).
    rewrite Nat.sub_0_r. simpl.
    destruct (nth_error packages i); simpl;
      destruct (sequentialInit flags); reflexivity.
  - intros t1 t2 i r Heq. exfalso.
    assert (Hin : In (ESetResult i r)
                    (st_trace (launch cip flags packages trace)))
      by (rewrite Heq; apply in_or_app; right; now left).
    rewrite Htr in Hin. apply in_app_or in Hin as [Hin|Hin].
    { apply Hev, is_loading_event in Hin as (_ & _ & _ & _ & Hn & _).
      now destruct (Hn i r). }
    simpl in Hin. destruct Hin as [Hin|[Hin|[Hin|Hin]]]; try discriminate.
    apply in_app_or in Hin as [Hin|Hin].
    { apply startTasks_events in Hin as (_ & _ & _ & Hn & _).
      now destruct (Hn i r). }
    rewrite Forall_forall in Hc. apply Hc in Hin. discriminate.
Qed.

End Tasks.



Lemma Forall2_of_nth {A B : Type} (R : A -> B -> Prop) (l1 : list A) :
  forall l2,
    List.length l1 = List.length l2 ->
    (forall i a b, nth_error l1 i = Some a -> nth_error l2 i = Some b -> R a b) ->
    Forall2 R l1 l2.
Proof.
  induction l1 as [|a l1 IH]; intros [|b l2] Hlen Hn; try discriminate;
    constructor.
  - apply (Hn 0); reflexivity.
  - apply IH; [simpl in Hlen; lia|].
    intros i a' b' Ha Hb. apply (Hn (S i)); assumption.
Qed.

Lemma Forall2_nth {A B : Type} (R : A -> B -> Prop) (l1 : list A) (l2 : list B) :
  Forall2 R l1 l2 ->
  forall i b, nth_error l2 i = Some b ->
    exists a, nth_error l1 i = Some a /\ R a b.
Proof.
  induction 1 as [|a b l1 l2 Hab _ IH]; intros [|i] b' Hb; try discriminate;
    simpl in *.
  - injection Hb as <-. eauto.
  - eauto.
Qed.

Lemma forget_set_result (p q : Package) (r : Result) :
  forget p = forget q -> result p = Some r -> p = set_result q r.
Proof.
  destruct p, q. unfold forget, set_result. simpl.
  intros [= -> -> -> -> -> -> -> -> ->] ->. reflexivity.
Qed.

Section Runs.

Context {H : Host}.

Lemma loadPackages_Forall2 (sources : list value) (ctx : MultiContext) :
  forall loaded,
    loadPackages sources ctx = Ok loaded ->
    Forall2 (fun s pkg => getPackage s ctx = Ok pkg) sources loaded.
Proof.
  induction sources as [|s rest IH]; simpl; intros loaded Hl.
  - injection Hl as <-. constructor.
  - apply bind_Ok in Hl as (pkg & Hpkg & Hl).
    apply bind_Ok in Hl as (pkgs & Hpkgs & Hl). injection Hl as <-.
    constructor; auto.
Qed.

(** A run stops before its tasks with the same error whatever the
    schedule, or it is the run of the tasks from their start. *)
Lemma run_cases (args : InputArguments) (io : value) (settings : Settings)
  (flags : value) :
  let flags' := default flags default_flags in
  (exists e pk tr,
     (forall ev, In ev tr -> is_loading ev = true)
     /\ forall schedule,
          multiSemanticRelease args io settings flags schedule
          = mkState pk [] (Thrown e) tr)
  \/ (exists tr0 pk ctx tr,
        load args io settings = (tr0, Ok (pk, ctx))
        /\ (tr = tr0 \/ tr = tr0 ++ [EIsCyclicProject])
        /\ (forall ev, In ev tr -> is_loading ev = true)
        /\ (forall p, In p pk -> result p = None)
        /\ forall schedule,
             multiSemanticRelease args io settings flags schedule
             = run (createInlinePluginCreator pk ctx flags') flags'
                 (launch (createInlinePluginCreator pk ctx flags') flags'
                    pk tr)
                 schedule).
Proof.
  intros flags'. unfold multiSemanticRelease. fold flags'.
  pose proof (load_cases args io settings) as Hl.
  destruct (load args io settings) as [trace [[packages ctx]|e]] eqn:El.
  - destruct Hl as (_ & _ & _ & Hres & Hev & _ & _).
    destruct (get flags' "sequentialPrepare") as [sp|e] eqn:Eg.
    + destruct (truthy sp) eqn:Esp.
      * destruct (isCyclicProject packages) eqn:Ecyc.
        -- left. exists CyclicError, packages. eexists.
           split; [|intros schedule; reflexivity].
           intros ev Hin. apply in_app_or in Hin as [Hin|Hin].
           ++ now apply Hev.
           ++ destruct Hin as [<-|[<-|[]]]; reflexivity.
        -- right. exists trace, packages, ctx, (trace ++ [EIsCyclicProject]).
           split; [reflexivity|]. split; [now right|]. split; [|split].
           ++ intros ev Hin. apply in_app_or in Hin as [Hin|Hin].
              ** now apply Hev.
              ** destruct Hin as [<-|[]]; reflexivity.
           ++ intros p Hp. now apply Hres.
           ++ intros schedule. reflexivity.
      * right. exists trace, packages, ctx, trace.
        split; [reflexivity|]. split; [now left|]. split; [|split].
        -- intros ev Hin. now apply Hev.
        -- intros p Hp. now apply Hres.
        -- intros schedule. reflexivity.
    + left. exists e, packages, trace.
      split; [intros ev Hin; now apply Hev|intros schedule; reflexivity].
  - left. exists e, [], trace. split; [|intros schedule; reflexivity].
    destruct Hl as [[_ ->]|(_ & _ & _ & Hev)]; [intros ev []|].
    intros ev Hin. now apply Hev.
Qed.

(** What holds of a run that reached the start of its tasks. *)
Lemma launched_invariant (cip : nat -> value) (flags : value)
  (pk : list Package) (tr : list event) (schedule : list signal) :
  (forall ev, In ev tr -> is_loading ev = true) ->
  (forall p, In p pk -> result p = None) ->
  let st := run cip flags (launch cip flags pk tr) schedule in
  invariant cip flags pk st
  /\ invoked_ok st /\ written_after_call (st_trace st).
Proof.
  intros Hev Hres st. split.
  - apply invariant_run, invariant_launch; auto.
  - destruct (launch_invoked cip flags pk tr Hev) as [Hi Hw].
    now apply run_invoked.
Qed.

(** X6: once the promise of multiSemanticRelease is settled, no later
    signal changes it: a rejected run stays rejected with the same error
    whatever its other tasks do afterwards, and after the run has returned
    nothing changes any more, neither the packages nor the log. *)
Theorem settled_promise_is_final (args : InputArguments) (io : value)
  (settings : Settings) (flags : value) (s1 s2 : list signal) :
  let st1 := multiSemanticRelease args io settings flags s1 in
  let st2 := multiSemanticRelease args io settings flags (s1 ++ s2) in
  st_main st1 <> Pending ->
  st_main st2 = st_main st1
  /\ forall ps, st_main st1 = Returned ps -> st2 = st1.
Proof.
  intros st1 st2 Hm. unfold st1, st2 in *.
  destruct (run_cases args io settings flags)
    as [(e & pk & tr & _ & Hst)|(tr0 & pk & ctx & tr & _ & _ & Hev & Hres & Hst)].
  - rewrite !Hst. auto.
  - rewrite !Hst in *. rewrite run_app. split.
    + now apply run_main_settled.
    + intros ps Hps. apply run_all_done.
      destruct (launched_invariant
                  (createInlinePluginCreator pk ctx
                     (default flags default_flags))
                  (default flags default_flags) pk tr s1 Hev Hres)
        as ((_ & _ & Hmain & _) & _).
      unfold main_ok in Hmain. rewrite Hps in Hmain. apply Hmain.
Qed.






(** X10: the packages a run returns are its sources, one for one and in
    the order of [paths] (or [packageManifests]): each is the package
    [getPackage] loaded from the source at the same position, with its
    [localDeps] and its [result] filled in. *)
Theorem returned_packages_follow_the_sources (args : InputArguments)
  (io : value) (settings : Settings) (flags : value) (schedule : list signal)
  (ps : list Package) :
  st_main (multiSemanticRelease args io settings flags schedule) = Returned ps ->
  Forall2
    (fun s p =>
       exists p0 l r,
         getPackage s (multiContext_of io settings) = Ok p0
         /\ p = set_result (set_localDeps p0 l) r)
    (sources_of args) ps.
Proof.
  destruct (run_cases args io settings flags)
    as [(e & pk & tr & _ & Hst)|(tr0 & pk & ctx & tr & Hload & _ & Hev & Hres & Hst)];
    rewrite Hst; [discriminate|].
  set (flags' := default flags default_flags) in *.
  set (cip := createInlinePluginCreator pk ctx flags') in *.
  set (st := run cip flags' (launch cip flags' pk tr) schedule).
  intros Hps.
  destruct (launched_invariant cip flags' pk tr schedule Hev Hres)
    as (((Hmap & Hlen) & (Hdone & _) & Hmain & _) & _).
  fold st in Hmap, Hlen, Hdone, Hmain.
  unfold main_ok in Hmain. rewrite Hps in Hmain.
  destruct Hmain as (-> & Hall & _).
  destruct (load_Ok args io settings tr0 pk ctx Hload)
    as (loaded & _ & -> & Hl & -> & _).
  apply loadPackages_Forall2 in Hl.
  assert (Hlp : List.length (st_packages st) = List.length loaded).
  { rewrite <- (length_map forget), Hmap, length_map.
    apply linkPackages_length. }
  apply Forall2_of_nth.
  - rewrite Hlp. now apply Forall2_length in Hl.
  - intros i s p Hs Hp.
    destruct (forget_nth _ _ i p Hmap Hp) as (q & Hq & Hf).
    apply linkPackages_nth in Hq as (p0 & Hp0 & ->).
    destruct (Forall2_nth _ _ _ Hl i p0 Hp0) as (s' & Hs' & Hg).
    rewrite Hs in Hs'. injection Hs' as <-.
    assert (Et : nth_error (st_tasks st) i = Some Done).
    { destruct (nth_error (st_tasks st) i) as [t|] eqn:Et.
      - now rewrite (all_done_nth _ _ _ Hall Et).
      - apply nth_error_None in Et. rewrite Hlen, linkPackages_length in Et.
        assert (i < List.length loaded)
          by (apply nth_error_Some; congruence). lia. }
    destruct (Hdone i Et) as (p' & r & Hp' & Hr & _).
    rewrite Hp in Hp'. injection Hp' as <-.
    exists p0, (resolveLocalDeps loaded p0), r. split; [exact Hg|].
    apply forget_set_result; auto.
Qed.

(** X11: every pipeline runs in the directory of its own package: the
    working directory handed to semanticRelease() for the package [i] is
    the [dir] of the source at position [i], which for a path is the
    directory of the cleaned path and for a source manifest the [dir] it
    carries. *)
Theorem pipeline_runs_in_the_directory_of_its_package (args : InputArguments)
  (io : value) (settings : Settings) (flags : value) (schedule : list signal)
  (i : nat) (opts : props) (d : value) :
  let st := multiSemanticRelease args io settings flags schedule in
  let cwd := cleanPath (default (s_cwd settings) process_cwd) VUndef in
  In (ESemanticRelease i opts d) (st_trace st) ->
  exists s,
    nth_error (sources_of args) i = Some s
    /\ d = prop (resolvePackageOrPath s cwd) "dir"
    /\ (is_string s = true -> d = dirname (cleanPath s cwd))
    /\ (is_string s = false -> d = prop s "dir").
Proof.
  intros st cwd0 Hin. unfold st in Hin.
  destruct (run_cases args io settings flags)
    as [(e & pk & tr & Hev & Hst)|(tr0 & pk & ctx & tr & Hload & _ & Hev & Hres & Hst)];
    rewrite Hst in Hin.
  - simpl in Hin. apply Hev, is_loading_event in Hin as (_ & _ & _ & _ & _ & Hn).
    now destruct (Hn i opts d).
  - set (flags' := default flags default_flags) in *.
    set (cip := createInlinePluginCreator pk ctx flags') in *.
    destruct (launched_invariant cip flags' pk tr schedule Hev Hres)
      as ((_ & _ & _ & Hcalls) & _).
    destruct (Hcalls i opts d Hin) as (pkg & Hpkg & _ & ->).
    destruct (load_Ok args io settings tr0 pk ctx Hload)
      as (loaded & _ & -> & Hl & -> & _).
    apply loadPackages_Forall2 in Hl.
    apply linkPackages_nth in Hpkg as (p0 & Hp0 & ->).
    destruct (Forall2_nth _ _ _ Hl i p0 Hp0) as (s & Hs & Hg).
    destruct (getPackage_fields s _ p0 Hg) as (_ & _ & Hdir & _).
    exists s. split; [exact Hs|]. simpl. rewrite Hdir.
    split; [reflexivity|].
    destruct s; simpl; split; try discriminate; reflexivity.
Qed.

(** X12: a run over an empty list of sources (an empty [paths] array is
    truthy, so it passes the checks) loads nothing, starts no task, calls
    neither [getPackage] nor semanticRelease(), and returns the empty list
    at once, whatever the schedule, after logging that it released 0 of 0
    packages. *)
Theorem nothing_to_release_returns_at_once (args : InputArguments)
  (io : value) (settings : Settings) (flags : value) (schedule : list signal) :
  let st := multiSemanticRelease args io settings flags schedule in
  checked args settings = Ok tt ->
  sources_of args = [] ->
  flags <> VNull ->
  st_main st = Returned []
  /\ st_tasks st = []
  /\ exists cyc,
       (cyc = [] \/ cyc = [EIsCyclicProject])
       /\ st_trace st
          = ELog Complete (Started 0)
            :: cyc
            ++ [ELog Complete (Queued 0); EGetSynchronizer;
                ECreateInlinePluginCreator; ELog Complete (ReleasedOf 0 0)].
Proof.
  intros st Hc Hs Hf. unfold st, multiSemanticRelease, load.
  fold (checked args settings). rewrite Hc.
  fold (sources_of args). rewrite Hs. simpl.
  assert (Hg : get (default flags default_flags) "sequentialPrepare"
               = Ok (prop (default flags default_flags) "sequentialPrepare"))
    by (destruct flags; try reflexivity; congruence).
  rewrite Hg.
  destruct (truthy (prop (default flags default_flags) "sequentialPrepare")).
  - change (isCyclicProject []) with false. cbv iota.
    rewrite run_no_tasks by reflexivity. simpl.
    repeat split. exists [EIsCyclicProject]. auto.
  - rewrite run_no_tasks by reflexivity. simpl.
    repeat split. exists []. auto.
Qed.

(** X13: when [paths] is supplied, [packageManifests] is not used: two
    calls that differ only in a [packageManifests] that passes its check
    (or is not supplied) run alike, even when [paths] is the empty array. *)
Theorem paths_take_precedence (p pm pm' io : value) (settings : Settings)
  (flags : value) (schedule : list signal) :
  truthy p = true ->
  (truthy pm = true -> check pm ObjectlikeList = true) ->
  (truthy pm' = true -> check pm' ObjectlikeList = true) ->
  multiSemanticRelease (mkInput p pm) io settings flags schedule
  = multiSemanticRelease (mkInput p pm') io settings flags schedule.
Proof.
  intros Hp Hpm Hpm'.
  assert (Hcheck : forall m,
            (truthy m = true -> check m ObjectlikeList = true) ->
            truthy m && negb (check m ObjectlikeList) = false).
  { intros m Hm. destruct (truthy m); [|reflexivity].
    now rewrite Hm. }
  assert (Hload : load (mkInput p pm) io settings
                  = load (mkInput p pm') io settings).
  { unfold load, checkParams. cbn [paths packageManifests].
    rewrite Hp, (Hcheck pm Hpm), (Hcheck pm' Hpm'). reflexivity. }
  unfold multiSemanticRelease. now rewrite Hload.
Qed.

(** A configuration error is thrown exactly when the checks throw it. *)
Lemma thrown_configuration_error (args : InputArguments) (io : value)
  (settings : Settings) (flags : value) (schedule : list signal) (e : error) :
  configuration_error e ->
  (st_main (multiSemanticRelease args io settings flags schedule) = Thrown e
   <-> checked args settings = Throw e).
Proof.
  intros Hconf.
  destruct (multiSemanticRelease_cases args io settings flags schedule)
    as [(e0 & Hc & Hst)|[(Hc & e0 & pk & tr & Hst & He & _)
                        |(Hc & pk & ctx & tr & Hev & Hres & _ & _ & Hst)]].
  - rewrite Hst, Hc. simpl. split; congruence.
  - rewrite Hst, Hc. simpl. split; [|discriminate]. intros [= <-].
    destruct Hconf as [->|(p & ->)], He as [He|(w & He)]; discriminate.
  - rewrite Hc. split; [|discriminate]. intros Hm. exfalso.
    set (flags' := default flags default_flags) in *.
    set (cip := createInlinePluginCreator pk ctx flags') in *.
    assert (Hinv : invariant cip flags' pk
                     (multiSemanticRelease args io settings flags schedule)).
    { rewrite Hst. apply invariant_run, invariant_launch; auto.
      intros p Hp. now apply Hres. }
    destruct Hinv as (_ & _ & Hmain & _). unfold main_ok in Hmain.
    rewrite Hm in Hmain. destruct Hmain as (_ & i & reason & -> & _).
    destruct Hconf as [|(p & ?)]; discriminate.
Qed.

(** X14: which configuration error a run throws: the checks are made in
    the order paths, packageManifests, presence of one of the two, cwd,
    env, stdout, stderr, and the first that fails decides. So an ill-shaped
    [paths] is reported whatever else is wrong, the missing-lists error
    only when both are falsy, and a bad setting only when the lists are
    in order. *)
Theorem first_failed_check_is_reported (args : InputArguments) (io : value)
  (settings : Settings) (flags : value) (schedule : list signal) :
  let st := multiSemanticRelease args io settings flags schedule in
  let paths_ok :=
    negb (truthy (paths args)) || check (paths args) StringList in
  let manifests_ok :=
    negb (truthy (packageManifests args))
    || check (packageManifests args) ObjectlikeList in
  let supplied := truthy (paths args) || truthy (packageManifests args) in
  let lists_ok := paths_ok && manifests_ok && supplied in
  let cwd_ok := check (default (s_cwd settings) process_cwd) Directory in
  let env_ok := check (default (s_env settings) process_env) Objectlike in
  let stdout_ok := check (default (s_stdout settings) process_stdout) Stream in
  let stderr_ok := check (default (s_stderr settings) process_stderr) Stream in
  (st_main st = Thrown (CheckError "paths") <-> paths_ok = false)
  /\ (st_main st = Thrown (CheckError "packageManifests")
      <-> paths_ok = true /\ manifests_ok = false)
  /\ (st_main st = Thrown ProvideError
      <-> paths_ok = true /\ manifests_ok = true /\ supplied = false)
  /\ (st_main st = Thrown (CheckError "cwd")
      <-> lists_ok = true /\ cwd_ok = false)
  /\ (st_main st = Thrown (CheckError "env")
      <-> lists_ok = true /\ cwd_ok = true /\ env_ok = false)
  /\ (st_main st = Thrown (CheckError "stdout")
      <-> lists_ok = true /\ cwd_ok = true /\ env_ok = true
          /\ stdout_ok = false)
  /\ (st_main st = Thrown (CheckError "stderr")
      <-> lists_ok = true /\ cwd_ok = true /\ env_ok = true
          /\ stdout_ok = true /\ stderr_ok = false).
Proof.
  intros st paths_ok manifests_ok supplied lists_ok cwd_ok env_ok stdout_ok
    stderr_ok.
  unfold st.
  rewrite !thrown_configuration_error
    by (unfold configuration_error; eauto).
  unfold checked, checkParams.
  subst lists_ok paths_ok manifests_ok supplied cwd_ok env_ok stdout_ok
    stderr_ok.
  destruct (truthy (paths args)), (truthy (packageManifests args)),
    (check (paths args) StringList),
    (check (packageManifests args) ObjectlikeList),
    (check (default (s_cwd settings) process_cwd) Directory),
    (check (default (s_env settings) process_env) Objectlike),
    (check (default (s_stdout settings) process_stdout) Stream),
    (check (default (s_stderr settings) process_stderr) Stream); simpl;
    repeat split; intros; try discriminate; try reflexivity;
    intuition discriminate.
Qed.

(** X15: every call of semanticRelease() carries, under "_pkgOptions", the
    options of its package as they were resolved when the package was
    loaded, whatever the flags and the inline plugin hold under that
    name. *)
Theorem pkgOptions_are_handed_over (args : InputArguments) (io : value)
  (settings : Settings) (flags : value) (schedule : list signal)
  (i : nat) (opts : props) (d : value) :
  let st := multiSemanticRelease args io settings flags schedule in
  In (ESemanticRelease i opts d) (st_trace st) ->
  exists pkg,
    nth_error (st_packages st) i = Some pkg
    /\ lookup "_pkgOptions" opts = Some (options pkg).
Proof.
  intros st Hin.
  destruct (semanticRelease_calls args io settings flags schedule i opts d Hin)
    as (pkg & ctx & plugin & Hp & -> & _).
  exists pkg. split; [exact Hp|].
  unfold releaseOptions. apply lookup_assign_same.
Qed.


(** X16: with sequentialInit, a task the Synchronizer never wakes stays
    suspended whatever else happens: its pipeline is never invoked, its
    package gets no result, and the run does not return. *)
Theorem unwoken_task_blocks_the_run (args : InputArguments) (io : value)
  (settings : Settings) (flags : value) (schedule : list signal) (i : nat) :
  let flags' := default flags default_flags in
  let st0 := multiSemanticRelease args io settings flags [] in
  let st := multiSemanticRelease args io settings flags schedule in
  truthy (prop flags' "sequentialInit") = true ->
  i < List.length (st_tasks st0) ->
  ~ In (Wake i) schedule ->
  nth_error (st_tasks st) i = Some WaitReady
  /\ invocations i (st_trace st) = []
  /\ (exists p, nth_error (st_packages st) i = Some p /\ result p = None)
  /\ forall ps, st_main st <> Returned ps.
Proof.
  intros flags' st0 st. subst st0 st. intros Hsi Hi Hn.
  destruct (run_cases args io settings flags)
    as [(e & pk & tr & _ & Hst)|(tr0 & pk & ctx & tr & _ & _ & Hev & Hres & Hst)];
    rewrite !Hst in *.
  - simpl in Hi. lia.
  - fold flags' in Hi |- *.
    set (cip := createInlinePluginCreator pk ctx flags') in *.
    change (run cip flags' (launch cip flags' pk tr) []) with
      (launch cip flags' pk tr) in Hi.
    rewrite launch_tasks, length_map in Hi.
    assert (Et0 : nth_error (st_tasks (launch cip flags' pk tr)) i
                  = Some WaitReady).
    { rewrite launch_tasks, nth_error_map. unfold sequentialInit.
      rewrite Hsi. destruct (nth_error pk i) eqn:Ep; [reflexivity|].
      apply nth_error_None in Ep. lia. }
    destruct (run_waiting cip flags' schedule i _ Et0 Hn) as [Et Ep].
    destruct (launched_invariant cip flags' pk tr schedule Hev Hres)
      as ((_ & (_ & Hnot & _) & Hmain & _) & Hinv & _).
    split; [exact Et|]. split; [|split].
    + specialize (Hinv i). now rewrite Et in Hinv.
    + destruct (Hnot i WaitReady Et) as (p & Hp & Hr & _); [discriminate|].
      eauto.
    + intros ps Hps. unfold main_ok in Hmain. rewrite Hps in Hmain.
      destruct Hmain as (_ & Hall & _).
      pose proof (all_done_nth _ _ _ Hall Et). discriminate.
Qed.


(** An event of the tasks: a claim, a wait, an inline plugin, a call, a
    write or the summary. *)
Definition is_task_event (ev : event) : bool :=
  match ev with
  | EGetLucky _ _ | EWaitFor _ _ | ECreateInlinePlugin _
  | ESemanticRelease _ _ _ | ESetResult _ _
  | ELog Complete (ReleasedOf _ _) => true
  | _ => false
  end.

Lemma startTasks_task_events (cip : nat -> value) (flags : value)
  (packages : list Package) (ev : event) :
  In ev (snd (startTasks cip flags 0 packages)) -> is_task_event ev = true.
Proof.
  destruct (sequentialInit flags) eqn:Hsi.
  - rewrite (startTasks_gated cip flags packages Hsi), in_flat_map.
    intros (j & _ & [<-|[<-|[]]]); reflexivity.
  - rewrite (startTasks_ungated cip flags packages Hsi), in_flat_map.
    intros ([j pkg] & _ & [<-|[<-|[]]]); reflexivity.
Qed.

(** X18: the trace of every run falls into two parts. The first holds the
    loading: the Started line, the [getPackage] calls, the Loaded lines and
    the cycle check. The second is empty when the run stopped there;
    otherwise it begins with the Queued line, which counts the loaded
    packages, followed by the one call of getSynchronizer and the one call
    of createInlinePluginCreator, and holds from there on only events of the
    tasks. So no pipeline starts before every package is loaded and
    linked. *)
Theorem loading_precedes_the_pipelines (args : InputArguments) (io : value)
  (settings : Settings) (flags : value) (schedule : list signal) :
  let st := multiSemanticRelease args io settings flags schedule in
  exists loading rest,
    st_trace st = loading ++ rest
    /\ (forall ev, In ev loading -> is_loading ev = true)
    /\ (rest = []
        \/ exists events,
             rest = ELog Complete (Queued (List.length (st_packages st)))
                    :: EGetSynchronizer :: ECreateInlinePluginCreator
                    :: events
             /\ forall ev, In ev events -> is_task_event ev = true).
Proof.
  intros st. unfold st.
  destruct (run_cases args io settings flags)
    as [(e & pk & tr & Hev & Hst)|(tr0 & pk & ctx & tr & _ & _ & Hev & Hres & Hst)];
    rewrite Hst.
  - exists tr, []. simpl. rewrite app_nil_r. auto.
  - set (flags' := default flags default_flags) in *.
    set (cip := createInlinePluginCreator pk ctx flags') in *.
    destruct (launched_trace cip flags' pk tr schedule Hev)
      as (c & evs & Htr & Hc & Hevs).
    destruct (launched_invariant cip flags' pk tr schedule Hev Hres)
      as (((Hmap & _) & _) & _).
    exists tr. eexists. split; [exact Htr|]. split; [exact Hev|].
    right. eexists. split.
    + rewrite <- (length_map forget (st_packages _)), Hmap, length_map.
      reflexivity.
    + intros ev Hin. apply in_app_or in Hin as [Hin|Hin].
      { now apply startTasks_task_events in Hin. }
      apply in_app_or in Hin as [Hin|Hin].
      * rewrite Forall_forall in Hc. apply Hc in Hin.
        destruct ev; try discriminate. destruct l, m; try discriminate.
        reflexivity.
      * rewrite Forall_forall in Hevs. apply Hevs in Hin.
        destruct ev; try contradiction; try reflexivity.
        destruct l, m; try contradiction. reflexivity.
Qed.

End Runs.

(** The sample repository: pkg-a's call is rejected, the run is rejected
    at once, and the later resolution of pkg-b's call does not change
    that. *)
Lemma rejected_run_stays_rejected :
  let st1 := @multiSemanticRelease Sample.host Sample.two_packages VUndef
               Sample.no_settings VUndef [Settle 0 (Reject VNull)] in
  let st2 := @multiSemanticRelease Sample.host Sample.two_packages VUndef
               Sample.no_settings VUndef
               ([Settle 0 (Reject VNull)]
                ++ [Settle 1 (Resolve Sample.a_release)]) in
  st_main st1 = Thrown (EngineError VNull)
  /\ st_main st2 = st_main st1
  /\ forall ps, st_main st1 = Returned ps -> st2 = st1.
Proof.
  split; [reflexivity|].
  apply (@settled_promise_is_final Sample.host Sample.two_packages VUndef
           Sample.no_settings VUndef [Settle 0 (Reject VNull)]
           [Settle 1 (Resolve Sample.a_release)]).
  discriminate.
Defined.



(** The repository on disk, released from its paths. *)
Lemma packages_of_the_paths :
  let st := @multiSemanticRelease Disk.host Disk.two_paths VUndef
              Sample.no_settings VUndef
              [Settle 1 (Resolve Skipped);
               Settle 0 (Resolve Sample.a_release)] in
  st_main st = Returned (st_packages st)
  /\ map name (st_packages st) = [VStr "pkg-a"; VStr "pkg-b"]
  /\ Forall2
       (fun s p =>
          exists p0 l r,
            @getPackage Disk.host s
              (@multiContext_of Disk.host VUndef Sample.no_settings) = Ok p0
            /\ p = set_result (set_localDeps p0 l) r)
       (sources_of Disk.two_paths) (st_packages st).
Proof.
  split; [reflexivity|]. split; [reflexivity|].
  apply (@returned_packages_follow_the_sources Disk.host Disk.two_paths VUndef
           Sample.no_settings VUndef
           [Settle 1 (Resolve Skipped); Settle 0 (Resolve Sample.a_release)]).
  reflexivity.
Defined.

(** The options package a's pipeline is invoked with on disk. *)
Definition options_on_disk : props :=
  match
    nth_error
      (st_packages (@multiSemanticRelease Disk.host Disk.two_paths VUndef
                      Sample.no_settings VUndef [])) 0
  with
  | Some pkg => @releaseOptions Disk.host default_flags pkg Sample.inline_plugin
  | None => []
  end.

Lemma directory_of_package_a :
  let st := @multiSemanticRelease Disk.host Disk.two_paths VUndef
              Sample.no_settings VUndef [] in
  let d := VStr "/repo/packages/a" in
  In (ESemanticRelease 0 options_on_disk d) (st_trace st)
  /\ exists s,
       nth_error (sources_of Disk.two_paths) 0 = Some s
       /\ d = prop (@resolvePackageOrPath Disk.host s (VStr "/repo")) "dir"
       /\ (is_string s = true
           -> d = @dirname Disk.host (@cleanPath Disk.host s (VStr "/repo")))
       /\ (is_string s = false -> d = prop s "dir").
Proof.
  assert (Hin : In (ESemanticRelease 0 options_on_disk (VStr "/repo/packages/a"))
                  (st_trace (@multiSemanticRelease Disk.host Disk.two_paths
                               VUndef Sample.no_settings VUndef []))).
  { vm_compute. do 9 right. left. reflexivity. }
  split; [exact Hin|].
  exact (@pipeline_runs_in_the_directory_of_its_package Disk.host
           Disk.two_paths VUndef Sample.no_settings VUndef [] 0 _ _ Hin).
Defined.

(** An empty list of paths. *)
Lemma empty_paths_release_nothing :
  let args := mkInput (array_of []) VUndef in
  let st := @multiSemanticRelease Sample.host args VUndef Sample.no_settings
              VUndef [Wake 0; Settle 0 (Resolve Skipped)] in
  truthy (paths args) = true
  /\ st_main st = Returned []
  /\ st_tasks st = []
  /\ exists cyc,
       (cyc = [] \/ cyc = [EIsCyclicProject])
       /\ st_trace st
          = ELog Complete (Started 0)
            :: cyc
            ++ [ELog Complete (Queued 0); EGetSynchronizer;
                ECreateInlinePluginCreator; ELog Complete (ReleasedOf 0 0)].
Proof.
  split; [reflexivity|].
  apply (@nothing_to_release_returns_at_once Sample.host
           (mkInput (array_of []) VUndef) VUndef Sample.no_settings VUndef
           [Wake 0; Settle 0 (Resolve Skipped)]).
  - reflexivity.
  - reflexivity.
  - discriminate.
Defined.

(** The paths on disk win over the source manifests of the sample. *)
Lemma paths_win_over_the_manifests :
  let p := paths Disk.two_paths in
  let pm := packageManifests Sample.two_packages in
  map name
    (st_packages (@multiSemanticRelease Disk.host (mkInput p pm) VUndef
                    Sample.no_settings VUndef []))
  = [VStr "pkg-a"; VStr "pkg-b"]
  /\ @multiSemanticRelease Disk.host (mkInput p pm) VUndef Sample.no_settings
       VUndef [Settle 0 (Resolve Skipped)]
     = @multiSemanticRelease Disk.host (mkInput p VUndef) VUndef
         Sample.no_settings VUndef [Settle 0 (Resolve Skipped)].
Proof.
  split; [reflexivity|].
  apply (@paths_take_precedence Disk.host (paths Disk.two_paths)
           (packageManifests Sample.two_packages) VUndef VUndef
           Sample.no_settings VUndef [Settle 0 (Resolve Skipped)]).
  - reflexivity.
  - intros _. reflexivity.
  - discriminate.
Defined.

(** The order of the checks, on a call where everything is wrong. *)
Example ill_shaped_paths_are_reported_first :
  let args := mkInput (VStr "packages/a/package.json") (VNum 1) in
  let settings := mkSettings (VNum 0) (VNum 0) (VNum 0) (VNum 0) in
  st_main (@multiSemanticRelease Sample.host args VUndef settings VUndef [])
  = Thrown (CheckError "paths").
Proof. reflexivity. Qed.

(** pkg-a of the sample: a flag named _pkgOptions does not reach the
    release engine. *)
Lemma pkgOptions_of_pkg_a :
  let flags := VObj Plain [("_pkgOptions", VStr "mine")] in
  let st := @multiSemanticRelease Sample.host Sample.two_packages VUndef
              Sample.no_settings flags [] in
  let opts := @releaseOptions Sample.host flags Sample.linked_pkg_a
                Sample.inline_plugin in
  own flags "_pkgOptions" = Some (VStr "mine")
  /\ exists pkg,
       nth_error (st_packages st) 0 = Some pkg
       /\ lookup "_pkgOptions" opts = Some (options pkg).
Proof.
  split; [reflexivity|].
  apply (@pkgOptions_are_handed_over Sample.host Sample.two_packages VUndef
           Sample.no_settings
           (VObj Plain [("_pkgOptions", VStr "mine")]) [] 0 _
           (VStr "/repo/pkg-a")).
  vm_compute. do 9 right. left. reflexivity.
Defined.


(** With sequentialInit and pkg-b's task never woken, pkg-a's release does
    not make the run return. *)
Lemma unwoken_pkg_b_blocks_the_sample :
  let flags := VObj Plain [("sequentialInit", VBool true)] in
  let schedule := [Wake 0; Settle 0 (Resolve Sample.a_release);
                   Settle 1 (Resolve Skipped)] in
  let st := @multiSemanticRelease Sample.host Sample.two_packages VUndef
              Sample.no_settings flags schedule in
  st_tasks st = [Done; WaitReady]
  /\ nth_error (st_tasks st) 1 = Some WaitReady
  /\ invocations 1 (st_trace st) = []
  /\ (exists p, nth_error (st_packages st) 1 = Some p /\ result p = None)
  /\ forall ps, st_main st <> Returned ps.
Proof.
  split; [reflexivity|].
  apply (@unwoken_task_blocks_the_run Sample.host Sample.two_packages VUndef
           Sample.no_settings
           (VObj Plain [("sequentialInit", VBool true)])
           [Wake 0; Settle 0 (Resolve Sample.a_release);
            Settle 1 (Resolve Skipped)] 1).
  - reflexivity.
  - vm_compute. lia.
  - intros [Hw|[Hw|[Hw|[]]]]; discriminate.
Defined.


End RunFacts.

(* ===================================================================== *)
(** ** [processFlags]: errors, keys and plain flags *)
(* ===================================================================== *)

Module FlagsFacts.
Import JS Lodash Cli JSFacts CliFacts MsrFacts PackageFacts.

(** *** Vocabulary *)



(** The key of the result a flag name is written under. *)
Definition top_key (name : string) : string := hd "" (flag_path name).

(** A name [set] takes as one key: no bracket, no dot, not reserved. *)
Definition plain_key (k : string) : bool :=
  negb (has_bracket k) && negb (contains "."%char k) && negb (reserved k).

(** *** Splitting and joining *)



Section Flags.

Variable bp : props -> string -> list string.

(** *** When [processFlags] throws *)


(** *** The keys of the result *)

Lemma processFlag_Ok (m m' : value) (k : string) (v : value) :
  processFlag bp m (k, v) = Ok m' -> exists v', m' = set bp m k v'.
Proof.
  unfold processFlag.
  destruct (String.eqb k "ignorePackages" && truthy v).
  - destruct (split_commas v) as [l|e]; simpl; [|discriminate].
    intros [= <-]. eauto.
  - intros [= <-]. eauto.
Qed.

Lemma reduce_keys (items : list (string * value)) :
  forall c o r,
    top_dotfree (VObj c o) -> NoDup (keys o) ->
    (forall name, In name (map fst items) -> has_bracket name = false) ->
    reduce bp items (VObj c o) = Ok r ->
    exists o',
      r = VObj c o'
      /\ NoDup (keys o')
      /\ forall k,
           In k (keys o')
           <-> In k (keys o)
               \/ exists name, In name (map fst items)
                               /\ top_key name = k /\ reserved k = false.
Proof.
  induction items as [|[k v] items IH]; intros c o r Hdf Hnd Hb Hr.
  - injection Hr as <-. exists o. repeat split; auto.
    intros [Hin|(name & [] & _)]. exact Hin.
  - cbn [reduce] in Hr. apply bind_Ok in Hr as (m' & Hm' & Hr).
    apply processFlag_Ok in Hm' as (v' & ->).
    rewrite (set_flag bp (VObj c o) k v' eq_refl Hdf) in Hr
      by (apply Hb; now left).
    pose proof (split_not_nil "."%char k) as Hnil.
    pose proof (split_parts "."%char k) as Hparts.
    unfold top_key in *. unfold flag_path in *.
    destruct (split "."%char k) as [|key rest] eqn:Ek; [congruence|].
    cbn [baseSet] in Hr. destruct (reserved key) eqn:Eres.
    + destruct (IH c o r Hdf Hnd) as (o' & -> & Hnd' & Hkeys); auto.
      { intros name Hin. apply Hb. now right. }
      exists o'. repeat split; auto.
      * intros Hin. apply Hkeys in Hin as [Hin|(name & Hin & Hk & Hres)]; auto.
        right. exists name. repeat split; auto. now right.
      * intros [Hin|(name & [<-|Hin] & Hk & Hres)].
        -- apply Hkeys. auto.
        -- cbn [fst] in Hk. rewrite Ek in Hk. simpl in Hk. subst k0.
           congruence.
        -- apply Hkeys. right. eauto.
    + match type of Hr with context [assign_prop key ?nv o] =>
        set (newValue := nv) in * end.
      destruct (IH c (assign_prop key newValue o) r) as (o' & -> & Hnd' & Hkeys);
        auto.
      { simpl. intros x Hx. apply keys_assign_In in Hx as [->|Hx].
        - apply Hparts. now left.
        - now apply Hdf. }
      { now apply keys_assign_NoDup. }
      { intros name Hin. apply Hb. now right. }
      exists o'. repeat split; auto.
      * intros Hin. apply Hkeys in Hin as [Hin|(name & Hin & Hk & Hres)].
        -- apply keys_assign_In in Hin as [->|Hin]; auto.
           right. exists k. cbn [map fst]. rewrite Ek. simpl.
           repeat split; auto.
        -- right. exists name. repeat split; auto. now right.
      * intros [Hin|(name & [<-|Hin] & Hk & Hres)].
        -- apply Hkeys. left. apply keys_assign_In. auto.
        -- cbn [fst] in Hk. rewrite Ek in Hk. simpl in Hk. subst k0.
           apply Hkeys. left. apply keys_assign_In. auto.
        -- apply Hkeys. right. eauto.
Qed.

(** X20: for bracket-free flag names, the result of [processFlags] is a
    plain object whose keys are, each once, the first parts of the flag
    names (the part before the first dot), those lodash refuses to write
    left out: flags that share a first part, like "deps.bump" and
    "deps.release", are gathered under one key, and no other key
    appears. *)
Theorem processFlags_keys_are_the_first_parts (flags r : value) :
  (forall name, In name (map fst (toPairs flags)) -> has_bracket name = false) ->
  processFlags bp flags = Ok r ->
  exists o,
    r = VObj Plain o
    /\ NoDup (keys o)
    /\ forall k,
         In k (keys o)
         <-> exists name, In name (map fst (toPairs flags))
                          /\ top_key name = k /\ reserved k = false.
Proof.
  intros Hb Hr. unfold processFlags in Hr.
  destruct (reduce_keys (toPairs flags) Plain [] r) as (o & -> & Hnd & Hkeys);
    auto.
  - simpl. intros k [].
  - constructor.
  - exists o. repeat split; auto.
    + intros Hin. apply Hkeys in Hin as [[]|Hin]. exact Hin.
    + intros Hin. apply Hkeys. now right.
Qed.

(** *** Flags that need no processing *)

Lemma assign_prop_new (k : string) (v : value) (o : props) :
  ~ In k (keys o) -> assign_prop k v o = o ++ [(k, v)].
Proof.
  induction o as [|[k' v'] o IH]; simpl; intros Hn; auto.
  destruct (String.eqb_spec k k') as [->|Hne]; [tauto|].
  rewrite IH; auto.
Qed.

Lemma reduce_plain (items : list (string * value)) :
  forall acc,
    NoDup (keys acc ++ map fst items) ->
    forallb plain_key (map fst items) = true ->
    (forall v, In ("ignorePackages", v) items -> truthy v = false) ->
    reduce bp items (VObj Plain acc) = Ok (VObj Plain (acc ++ items)).
Proof.
  induction items as [|[k v] items IH]; intros acc Hnd Hplain Hign.
  - simpl. now rewrite app_nil_r.
  - cbn [map fst forallb] in Hplain. apply andb_true_iff in Hplain as [Hk Hplain].
    unfold plain_key in Hk. apply andb_true_iff in Hk as [Hk Hres].
    apply andb_true_iff in Hk as [Hbr Hdot].
    apply negb_true_iff in Hbr, Hdot, Hres.
    cbn [reduce]. unfold processFlag.
    assert (Hc : String.eqb k "ignorePackages" && truthy v = false).
    { destruct (String.eqb_spec k "ignorePackages") as [->|]; [|reflexivity].
      simpl. apply Hign. now left. }
    rewrite Hc. cbn [bind]. unfold set. cbn [isObject castPath].
    rewrite Hbr, Hdot. cbn [andb baseSet]. rewrite Hres.
    cbn [map fst] in Hnd.
    rewrite assign_prop_new.
    2:{ apply NoDup_remove_2 in Hnd. intros Hin. apply Hnd.
        apply in_or_app. now left. }
    rewrite IH.
    + now rewrite <- app_assoc.
    + unfold keys in *. rewrite map_app. simpl. rewrite <- app_assoc. simpl.
      exact Hnd.
    + exact Hplain.
    + intros v' Hin. apply Hign. now right.
Qed.

(** X21: a flag object whose names are distinct and plain (no dot, no
    bracket, none of the keys lodash refuses to write) and whose
    ignorePackages is absent or falsy comes back as it is: a plain object
    with the same flags, the same values and the same order. *)
Theorem processFlags_keeps_plain_flags (flags : value) :
  distinct (map fst (toPairs flags)) = true ->
  forallb plain_key (map fst (toPairs flags)) = true ->
  truthy (prop flags "ignorePackages") = false ->
  processFlags bp flags = Ok (VObj Plain (toPairs flags)).
Proof.
  intros Hd Hplain Hign. apply distinct_NoDup in Hd.
  unfold processFlags.
  rewrite (reduce_plain (toPairs flags) []); auto.
  intros v Hin. destruct flags as [| | | | |c o]; try contradiction.
  simpl in *. now rewrite (lookup_of_in _ _ _ Hd Hin) in Hign.
Qed.


End Flags.

(** The flags of the command line: "deps.bump" and "deps.release" come
    under the one key "deps". *)
Lemma keys_of_the_cli_flags :
  let r :=
    VObj Plain
      [("sequentialInit", VBool false);
       ("sequentialPrepare", VBool false);
       ("deps", VObj Plain [("bump", VStr "override");
                            ("release", VStr "patch")]);
       ("ignorePackages",
        array_of [VStr "packages/a/**"; VStr "packages/b/**"]);
       ("dryRun", VBool true)] in
  processFlags Sample.no_brackets Sample.cli_flags = Ok r
  /\ exists o,
       r = VObj Plain o
       /\ NoDup (keys o)
       /\ forall k,
            In k (keys o)
            <-> exists name, In name (map fst (toPairs Sample.cli_flags))
                             /\ top_key name = k /\ reserved k = false.
Proof.
  split; [reflexivity|].
  apply (processFlags_keys_are_the_first_parts Sample.no_brackets
           Sample.cli_flags).
  - intros name Hin. simpl in Hin.
    repeat (destruct Hin as [<-|Hin]; [reflexivity|]). contradiction.
  - reflexivity.
Defined.

(** Flags without a dotted name and with an empty ignorePackages. *)
Lemma plain_flags_come_back :
  let flags :=
    VObj Plain [("sequentialInit", VBool false); ("dryRun", VBool true);
                ("ignorePackages", VStr "")] in
  processFlags Sample.no_brackets flags = Ok (VObj Plain (toPairs flags)).
Proof.
  apply (processFlags_keeps_plain_flags Sample.no_brackets
           (VObj Plain [("sequentialInit", VBool false);
                        ("dryRun", VBool true);
                        ("ignorePackages", VStr "")])); reflexivity.
Defined.


End FlagsFacts.
